(** * Pokemon Clubhouse: movement, tile resolution and map-scoped broadcast

    A shallow embedding of three parts of the game:
    - [PlayerTs]      client/src/engine/Player.ts (grid movement state machine),
    - [MapRendererTs] client/src/engine/map/MapRenderer.ts (tile resolution,
                      autotile quadrants, collision table),
    - [ServerTs]      the WebSocket server (player registry and broadcasts).

    Grid coordinates, tile identifiers and map identifiers are JavaScript
    numbers holding integers; they are modelled as [Z].  Elapsed time and the
    interpolation scalars are IEEE-754 doubles and are modelled as [float].

    A JavaScript number is a double, and integer arithmetic on doubles is the
    arithmetic of [Z] exactly as long as operands and results have magnitude
    at most 2^53.  Where a statement depends on a sum or difference of
    coordinates or identifiers it carries that bound; where the source
    subtracts from an unbounded tile identifier the rounding is written out
    ([js_sub]); and [PlayerDoubleTs] repeats the coordinate arithmetic of
    [Player.ts] on doubles themselves, to show what happens past the
    bound. *)

From Stdlib Require Import ZArith List Bool String Lia PrimFloat.
From Stdlib Require Import Ascii Permutation.
Import ListNotations.
Set Warnings "-inexact-float".
Open Scope Z_scope.

(** JavaScript [a % b]: the remainder takes the sign of the dividend. *)
Definition js_mod (a b : Z) : Z := Z.rem a b.

(** JavaScript [Math.floor(a / b)] on integers with a positive divisor. *)
Definition js_floor_div (a b : Z) : Z := Z.div a b.

(** [Number.MAX_SAFE_INTEGER], 2^53 - 1, and the largest magnitude up to
    which every integer is a double, 2^53. *)
Definition MAX_SAFE_INTEGER : Z := 9007199254740991.
Definition EXACT_LIMIT : Z := 9007199254740992.

(** The double nearest to an integer, ties to the even significand: the
    integer itself up to 2^53, and beyond it the multiple of 2^e nearest to
    it, where 2^e is the spacing of the doubles of its magnitude. *)
Definition js_round (v : Z) : Z :=
  let a := Z.abs v in
  if a <=? EXACT_LIMIT then v
  else
    let e := Z.log2 a - 52 in
    let q := a / 2 ^ e in
    let r := a mod 2 ^ e in
    let half := 2 ^ (e - 1) in
    let m :=
      if r <? half then q
      else if half <? r then q + 1
      else if Z.even q then q else q + 1 in
    Z.sgn v * (m * 2 ^ e).

(** JavaScript [a + b] and [a - b] on numbers holding integers. *)
Definition js_add (a b : Z) : Z := js_round (a + b).
Definition js_sub (a b : Z) : Z := js_round (a - b).

(** [type Direction = 0 | 1 | 2 | 3; // 0=down, 1=left, 2=right, 3=up] *)
Inductive Direction : Type := Down | Left | Right | Up.

Definition direction_code (d : Direction) : Z :=
  match d with Down => 0 | Left => 1 | Right => 2 | Up => 3 end.

(* ================================================================== *)
(** * client/src/engine/Player.ts *)
(* ================================================================== *)
Module PlayerTs.

(** What a method does to the outside world, in program order: console
    output and invocations of the optional [onMove] callback. *)
Inductive Effect : Type :=
| WarnAlreadyMoving
| LogStartMove (x y targetX targetY : Z)
| LogMovementComplete (targetX targetY : Z)
| OnMove (x y : Z) (direction : Direction) (isMoving : bool).

Definition is_OnMove (e : Effect) : bool :=
  match e with OnMove _ _ _ _ => true | _ => false end.

(** The fields of [class Player].  [sprite] is an opaque image handle and
    [onMove] records whether a callback has been installed by [setOnMove]. *)
Record Player : Type := mkPlayer {
  x : Z;
  y : Z;
  sprite : nat;
  tileSize : Z;
  isMoving : bool;
  moveProgress : float;
  moveSpeed : float;
  targetX : Z;
  targetY : Z;
  direction : Direction;
  animationFrame : Z;
  animationTimer : float;
  frameInterval : float;
  animationSpeed : float;
  spriteWidth : Z;
  spriteHeight : Z;
  onMove : bool
}.

(** [constructor(x, y, sprite, tileSize)] *)
Definition new_Player (x0 y0 : Z) (sprite0 : nat) (tileSize0 : Z) : Player :=
  {| x := x0; y := y0; sprite := sprite0; tileSize := tileSize0;
     isMoving := false; moveProgress := 0%float; moveSpeed := 4.5%float;
     targetX := x0; targetY := y0;
     direction := Down;
     animationFrame := 0; animationTimer := 0%float;
     frameInterval := 0.12%float; animationSpeed := 0.1%float;
     spriteWidth := 32; spriteHeight := 48;
     onMove := false |}.

Definition setOnMove (p : Player) : Player :=
  {| x := x p; y := y p; sprite := sprite p; tileSize := tileSize p;
     isMoving := isMoving p; moveProgress := moveProgress p;
     moveSpeed := moveSpeed p;
     targetX := targetX p; targetY := targetY p;
     direction := direction p;
     animationFrame := animationFrame p; animationTimer := animationTimer p;
     frameInterval := frameInterval p; animationSpeed := animationSpeed p;
     spriteWidth := spriteWidth p; spriteHeight := spriteHeight p;
     onMove := true |}.

(** The [if (dy > 0) ... else if (dy < 0) ... else if (dx < 0) ... else if
    (dx > 0) ...] chain of [startMove]; the direction is kept when both
    deltas are zero. *)
Definition move_direction (dx dy : Z) (old : Direction) : Direction :=
  if 0 <? dy then Down
  else if dy <? 0 then Up
  else if dx <? 0 then Left
  else if 0 <? dx then Right
  else old.

(** [startMove(dx, dy): boolean]

    The target is the sum of the integers, which is what the source
    computes while position and delta stay in the exact range of magnitude
    at most 2^53; [PlayerDoubleTs.startMove] has the sum on doubles. *)
Definition startMove (dx dy : Z) (p : Player) : bool * Player * list Effect :=
  if isMoving p then (false, p, [WarnAlreadyMoving])
  else
    let direction' := move_direction dx dy (direction p) in
    let p' :=
      {| x := x p; y := y p; sprite := sprite p; tileSize := tileSize p;
         isMoving := true; moveProgress := 0%float;
         moveSpeed := moveSpeed p;
         targetX := x p + dx; targetY := y p + dy;
         direction := direction';
         animationFrame := animationFrame p;
         animationTimer := animationTimer p;
         frameInterval := frameInterval p;
         animationSpeed := animationSpeed p;
         spriteWidth := spriteWidth p; spriteHeight := spriteHeight p;
         onMove := onMove p |} in
    (true, p',
     LogStartMove (x p') (y p') (targetX p') (targetY p')
       :: (if onMove p' then [OnMove (x p') (y p') (direction p') true]
           else [])).

(** [update(deltaTime = 0.016): void].  The [Math.random() < 0.01] branch of
    the source has an empty body and is left out. *)
Definition update (deltaTime : float) (p : Player) : Player * list Effect :=
  if isMoving p then
    let moveProgress' := (moveProgress p + moveSpeed p * deltaTime)%float in
    if (1 <=? moveProgress')%float then
      let p' :=
        {| x := targetX p; y := targetY p;
           sprite := sprite p; tileSize := tileSize p;
           isMoving := false; moveProgress := 0%float;
           moveSpeed := moveSpeed p;
           targetX := targetX p; targetY := targetY p;
           direction := direction p;
           animationFrame := 0;
           animationTimer := animationTimer p;
           frameInterval := frameInterval p;
           animationSpeed := animationSpeed p;
           spriteWidth := spriteWidth p; spriteHeight := spriteHeight p;
           onMove := onMove p |} in
      (p',
       LogMovementComplete (targetX p) (targetY p)
         :: (if onMove p' then [OnMove (x p') (y p') (direction p') false]
             else []))
    else
      let animationTimer' := (animationTimer p + deltaTime)%float in
      let wrap := (frameInterval p <=? animationTimer')%float in
      ({| x := x p; y := y p; sprite := sprite p; tileSize := tileSize p;
          isMoving := isMoving p; moveProgress := moveProgress';
          moveSpeed := moveSpeed p;
          targetX := targetX p; targetY := targetY p;
          direction := direction p;
          animationFrame :=
            if wrap then js_mod (animationFrame p + 1) 4
            else animationFrame p;
          animationTimer := if wrap then 0%float else animationTimer';
          frameInterval := frameInterval p;
          animationSpeed := animationSpeed p;
          spriteWidth := spriteWidth p; spriteHeight := spriteHeight p;
          onMove := onMove p |}, [])
  else (p, []).

(** The default argument of [update]. *)
Definition update_default (p : Player) : Player * list Effect :=
  update 0.016%float p.

(** [setState(x, y, direction, isMoving): void]

    As in [startMove], [x + 1] and [x - 1] are taken on the integers, exact
    for positions of magnitude below 2^53; [PlayerDoubleTs.setState] has
    them on doubles. *)
Definition setState (x' y' : Z) (direction' : Direction) (isMoving' : bool)
    (p : Player) : Player :=
  let starting := isMoving' && negb (isMoving p) in
  {| x := x'; y := y'; sprite := sprite p; tileSize := tileSize p;
     isMoving := isMoving';
     moveProgress := if starting then 0%float else moveProgress p;
     moveSpeed := moveSpeed p;
     targetX :=
       if isMoving' then
         match direction' with
         | Right => x' + 1
         | Left => x' - 1
         | _ => x'
         end
       else x';
     targetY :=
       if isMoving' then
         match direction' with
         | Down => y' + 1
         | Up => y' - 1
         | _ => y'
         end
       else y';
     direction := direction';
     animationFrame := if starting then 0 else animationFrame p;
     animationTimer := if starting then 0%float else animationTimer p;
     frameInterval := frameInterval p;
     animationSpeed := animationSpeed p;
     spriteWidth := spriteWidth p; spriteHeight := spriteHeight p;
     onMove := onMove p |}.

(** ** Operation sequences *)

Inductive Op : Type :=
| OpStartMove (dx dy : Z)
| OpUpdate (deltaTime : float)
| OpSetState (x y : Z) (direction : Direction) (isMoving : bool).

Definition apply_op (o : Op) (p : Player) : Player :=
  match o with
  | OpStartMove dx dy => snd (fst (startMove dx dy p))
  | OpUpdate dt => fst (update dt p)
  | OpSetState x' y' d m => setState x' y' d m p
  end.

Definition run (ops : list Op) (p : Player) : Player :=
  fold_left (fun q o => apply_op o q) ops p.

(** (dx,dy) is one of (0,1), (0,-1), (1,0), (-1,0). *)
Definition unit_delta (dx dy : Z) : Prop :=
  (dx = 0 /\ (dy = 1 \/ dy = -1)) \/ ((dx = 1 \/ dx = -1) /\ dy = 0).

Definition admissible (o : Op) : Prop :=
  match o with
  | OpStartMove dx dy => unit_delta dx dy
  | OpUpdate dt => (0 <=? dt)%float = true
  | OpSetState _ _ _ _ => True
  end.

(** The target is one tile away from the position along exactly one axis. *)
Definition one_tile_away (p : Player) : Prop :=
  (targetX p = x p /\ Z.abs (targetY p - y p) = 1) \/
  (Z.abs (targetX p - x p) = 1 /\ targetY p = y p).

Definition at_rest (p : Player) : Prop :=
  targetX p = x p /\ targetY p = y p.

Definition motion_invariant (p : Player) : Prop :=
  if isMoving p then one_tile_away p else at_rest p.

(** ** Sample data *)

(** A player standing on tile (3,4) with a callback installed, and the same
    player one accepted step to the right later. *)
Definition standing : Player := setOnMove (new_Player 3 4 0 32).
Definition stepping : Player := snd (fst (startMove 1 0 standing)).

(** A mixed sequence of local moves, frames and a network update. *)
Definition sample_ops : list Op :=
  [ OpStartMove 1 0; OpUpdate 0.1%float; OpStartMove 0 1;
    OpSetState 7 7 Up true; OpUpdate 0.016%float; OpUpdate 1%float;
    OpStartMove 0 (-1) ].

(** ** Drawing *)

(** The "Calculate sprite sheet position" step of [render]: the walk frame
    while moving and frame 1 while standing, and the source corner
    ([srcX], [srcY]) of the 32x48 cell that [drawImage] copies. *)
Definition renderFrame (p : Player) : Z :=
  if isMoving p then js_mod (animationFrame p) 4 else 1.

Definition renderSource (p : Player) : Z * Z :=
  (renderFrame p * 32, direction_code (direction p) * 48).

(** What an observer of the motion sees of a player. *)
Definition kinematics (p : Player) : Z * Z * Z * Z * Direction * bool :=
  (x p, y p, targetX p, targetY p, direction p, isMoving p).

(** ** A remote replica *)

(** The effects of one operation. *)
Definition op_effects (o : Op) (p : Player) : list Effect :=
  match o with
  | OpStartMove dx dy => snd (startMove dx dy p)
  | OpUpdate dt => snd (update dt p)
  | OpSetState _ _ _ _ => []
  end.

(** The effects of a sequence of operations, in order. *)
Fixpoint trace (ops : list Op) (p : Player) : list Effect :=
  match ops with
  | [] => []
  | o :: rest => op_effects o p ++ trace rest (apply_op o p)
  end.

(** What the peer does with an effect of the local player: every [onMove]
    call reaches it as a [setState], the rest is not seen. *)
Definition replayEffect (e : Effect) (q : Player) : Player :=
  match e with
  | OnMove ex ey ed em => setState ex ey ed em q
  | _ => q
  end.

Definition replay (es : list Effect) (q : Player) : Player :=
  fold_left (fun r e => replayEffect e r) es q.

(** The operations of a player driven locally: moves by one tile and
    frames. *)
Definition localOp (o : Op) : Prop :=
  match o with
  | OpStartMove dx dy => unit_delta dx dy
  | OpUpdate _ => True
  | OpSetState _ _ _ _ => False
  end.

Definition sample_local_ops : list Op :=
  [ OpStartMove 1 0; OpUpdate 0.1%float; OpStartMove 0 1;
    OpUpdate 0.2%float ; OpStartMove 0 (-1); OpUpdate 0.016%float ].

(** ** Coordinates within the exact range *)

(** A value of magnitude at most [b]. *)
Definition within (b v : Z) : Prop := - b <= v <= b.

(** The sum [a + b] as the source computes it on doubles is the sum of the
    integers: both operands and the result have magnitude at most 2^53. *)
Definition exactSum (a b : Z) : Prop :=
  within EXACT_LIMIT a /\ within EXACT_LIMIT b /\ within EXACT_LIMIT (a + b).

(** Position and target of magnitude at most [b]. *)
Definition coordsWithin (b : Z) (p : Player) : Prop :=
  within b (x p) /\ within b (y p) /\
  within b (targetX p) /\ within b (targetY p).

(** An operation of the movement state machine whose position argument, if
    it has one, is an integer of magnitude at most [b]. *)
Definition admissibleWithin (b : Z) (o : Op) : Prop :=
  match o with
  | OpStartMove dx dy => unit_delta dx dy
  | OpUpdate dt => (0 <=? dt)%float = true
  | OpSetState x' y' _ _ => within b x' /\ within b y'
  end.

End PlayerTs.

(* ================================================================== *)
(** * client/src/engine/Player.ts, coordinates as doubles *)
(* ================================================================== *)
(** The constructor, [startMove] and [setState] once more, with every
    [number] field a double, as the program runs them. *)
Module PlayerDoubleTs.

Inductive Effect : Type :=
| WarnAlreadyMoving
| LogStartMove (x y targetX targetY : float)
| OnMove (x y : float) (direction : Direction) (isMoving : bool).

Record Player : Type := mkPlayer {
  x : float;
  y : float;
  sprite : nat;
  tileSize : float;
  isMoving : bool;
  moveProgress : float;
  moveSpeed : float;
  targetX : float;
  targetY : float;
  direction : Direction;
  animationFrame : float;
  animationTimer : float;
  frameInterval : float;
  animationSpeed : float;
  spriteWidth : float;
  spriteHeight : float;
  onMove : bool
}.

(** [constructor(x, y, sprite, tileSize)] *)
Definition new_Player (x0 y0 : float) (sprite0 : nat) (tileSize0 : float)
    : Player :=
  {| x := x0; y := y0; sprite := sprite0; tileSize := tileSize0;
     isMoving := false; moveProgress := 0%float; moveSpeed := 4.5%float;
     targetX := x0; targetY := y0;
     direction := Down;
     animationFrame := 0%float; animationTimer := 0%float;
     frameInterval := 0.12%float; animationSpeed := 0.1%float;
     spriteWidth := 32%float; spriteHeight := 48%float;
     onMove := false |}.

Definition move_direction (dx dy : float) (old : Direction) : Direction :=
  if (0 <? dy)%float then Down
  else if (dy <? 0)%float then Up
  else if (dx <? 0)%float then Left
  else if (0 <? dx)%float then Right
  else old.

(** [startMove(dx, dy): boolean] *)
Definition startMove (dx dy : float) (p : Player)
    : bool * Player * list Effect :=
  if isMoving p then (false, p, [WarnAlreadyMoving])
  else
    let direction' := move_direction dx dy (direction p) in
    let p' :=
      {| x := x p; y := y p; sprite := sprite p; tileSize := tileSize p;
         isMoving := true; moveProgress := 0%float;
         moveSpeed := moveSpeed p;
         targetX := (x p + dx)%float; targetY := (y p + dy)%float;
         direction := direction';
         animationFrame := animationFrame p;
         animationTimer := animationTimer p;
         frameInterval := frameInterval p;
         animationSpeed := animationSpeed p;
         spriteWidth := spriteWidth p; spriteHeight := spriteHeight p;
         onMove := onMove p |} in
    (true, p',
     LogStartMove (x p') (y p') (targetX p') (targetY p')
       :: (if onMove p' then [OnMove (x p') (y p') (direction p') true]
           else [])).

(** [setState(x, y, direction, isMoving): void] *)
Definition setState (x' y' : float) (direction' : Direction)
    (isMoving' : bool) (p : Player) : Player :=
  let starting := isMoving' && negb (isMoving p) in
  {| x := x'; y := y'; sprite := sprite p; tileSize := tileSize p;
     isMoving := isMoving';
     moveProgress := if starting then 0%float else moveProgress p;
     moveSpeed := moveSpeed p;
     targetX :=
       if isMoving' then
         match direction' with
         | Right => (x' + 1)%float
         | Left => (x' - 1)%float
         | _ => x'
         end
       else x';
     targetY :=
       if isMoving' then
         match direction' with
         | Down => (y' + 1)%float
         | Up => (y' - 1)%float
         | _ => y'
         end
       else y';
     direction := direction';
     animationFrame := if starting then 0%float else animationFrame p;
     animationTimer := if starting then 0%float else animationTimer p;
     frameInterval := frameInterval p;
     animationSpeed := animationSpeed p;
     spriteWidth := spriteWidth p; spriteHeight := spriteHeight p;
     onMove := onMove p |}.

(** The movement invariant, decided on doubles: a moving player's target is
    exactly one tile from its position along exactly one axis, an idle
    player's target is its position. *)
Definition at_rest (p : Player) : bool :=
  ((targetX p =? x p) && (targetY p =? y p))%float.

Definition one_tile_away (p : Player) : bool :=
  (((targetX p =? x p) && (abs (targetY p - y p) =? 1))
   || ((abs (targetX p - x p) =? 1) && (targetY p =? y p)))%float.

Definition motion_invariant (p : Player) : bool :=
  if isMoving p then one_tile_away p else at_rest p.

(** An idle player on tile (3,4); the same player after the network
    reported it moving right from tile (5,4), and from tile (2^53,4). *)
Definition idle : Player := new_Player 3 4 0 32.
Definition nearby : Player := setState 5 4 Right true idle.
Definition faraway : Player := setState 9007199254740992 4 Right true idle.

End PlayerDoubleTs.

(* ================================================================== *)
(** * client/src/engine/map/MapRenderer.ts *)
(* ================================================================== *)
Module MapRendererTs.

(** [type Layer = number[][]], indexed [layer[y][x]]. *)
Definition Layer : Type := list (list Z).

Record MapData : Type := mkMapData {
  mapWidth : Z;
  mapHeight : Z;
  mapLayers : list Layer
}.

(** An [HTMLImageElement]: a handle and the two dimensions the renderer
    reads. *)
Record Image : Type := mkImage {
  imageId : nat;
  imageWidth : Z;
  imageHeight : Z
}.

(** [interface TileCoords]; an absent [isRMXPAutotile] is falsy. *)
Record TileCoords : Type := mkTileCoords {
  coordX : Z;
  coordY : Z;
  sourceImage : option Image;
  isRMXPAutotile : bool;
  tileId : option Z;
  mapX : option Z;
  mapY : option Z
}.

(** The object literal [{ x: ..., y: ... }]. *)
Definition plainCoords (cx cy : Z) : TileCoords :=
  mkTileCoords cx cy None false None None None.

(** The state of [class MapRenderer] that the modelled methods read. *)
Record MapRenderer : Type := mkMapRenderer {
  tileset : Image;
  autotiles : list (option Image);
  tileSize : Z;
  width : Z;
  height : Z;
  layers : list Layer;
  tilesetColumns : Z;
  animationFrame : Z
}.

(** The tile size every caller passes ([const TILE_SIZE = 32]). *)
Definition TILE_SIZE : Z := 32.

(** [constructor(mapData, tileset, tileSize, autotiles = [])] *)
Definition new_MapRenderer (mapData : MapData) (tileset0 : Image)
    (tileSize0 : Z) (autotiles0 : list (option Image)) : MapRenderer :=
  {| tileset := tileset0; autotiles := autotiles0; tileSize := tileSize0;
     width := mapWidth mapData; height := mapHeight mapData;
     layers := mapLayers mapData;
     tilesetColumns := 8; animationFrame := 0 |}.

(** Array read [a[i]]: [undefined] outside the array. *)
Definition js_index {A : Type} (a : list A) (i : Z) : option A :=
  if i <? 0 then None else nth_error a (Z.to_nat i).

(** [const autotileSlot = Math.floor(tileId / 48)] and
    [const autotileVariation = tileId % 48] of [getAutotileCoords]. *)
Definition autotileSlot (tileId0 : Z) : Z := js_floor_div tileId0 48.
Definition autotileVariation (tileId0 : Z) : Z := js_mod tileId0 48.

(** [private getAutotileCoords(tileId, x?, y?)] *)
Definition getAutotileCoords (mr : MapRenderer) (tileId0 : Z)
    (x y : option Z) : option TileCoords :=
  match js_index (autotiles mr) (autotileSlot tileId0) with
  | Some (Some autotileImage) =>
      if (imageWidth autotileImage =? 128) && (imageHeight autotileImage =? 32)
      then
        let frameX := js_mod (animationFrame mr) 4 * tileSize mr in
        Some (mkTileCoords frameX 0 (Some autotileImage) false None None None)
      else if (imageWidth autotileImage =? 96)
              && (imageHeight autotileImage =? 128)
      then
        Some (mkTileCoords 0 0 (Some autotileImage) true (Some tileId0) x y)
      else
        Some (mkTileCoords 0 0 (Some autotileImage) false None None None)
  | _ => Some (plainCoords 0 0)
  end.

(** [getTileCoords(tileId, x?, y?): TileCoords | null] *)
Definition getTileCoords (mr : MapRenderer) (tileId0 : Z)
    (x y : option Z) : option TileCoords :=
  if tileId0 =? 0 then None
  else if tileId0 <? 384 then getAutotileCoords mr tileId0 x y
  else
    let tilesetIndex := js_sub tileId0 384 in
    let col := js_mod tilesetIndex (tilesetColumns mr) in
    let row := js_floor_div tilesetIndex (tilesetColumns mr) in
    Some (plainCoords (col * tileSize mr) (row * tileSize mr)).

(** [layer[y][x]], [None] when the row or the cell does not exist. *)
Definition cell (layer : Layer) (x y : Z) : option Z :=
  match js_index layer y with
  | Some row => js_index row x
  | None => None
  end.

(** The body of the [for] loop of [getTileIdAt], over the layers in the
    order the loop visits them (last layer first). *)
Fixpoint scanLayers (visit : list Layer) (x y : Z) : Z :=
  match visit with
  | [] => 0
  | layer :: rest =>
      match cell layer x y with
      | Some t => if t =? 0 then scanLayers rest x y else t
      | None => scanLayers rest x y
      end
  end.

(** [private getTileIdAt(x, y): number] *)
Definition getTileIdAt (mr : MapRenderer) (x y : Z) : Z :=
  if (x <? 0) || (width mr <=? x) || (y <? 0) || (height mr <=? y)
  then -1
  else scanLayers (rev (layers mr)) x y.

(** The eight [has...] constants of [renderRMXPAutotile]. *)
Record Neighbors : Type := mkNeighbors {
  hasUp : bool;
  hasRight : bool;
  hasDown : bool;
  hasLeft : bool;
  hasUpLeft : bool;
  hasUpRight : bool;
  hasDownLeft : bool;
  hasDownRight : bool
}.

Definition neighborFlags (mr : MapRenderer) (tileId0 x y : Z) : Neighbors :=
  {| hasUp := getTileIdAt mr x (y - 1) =? tileId0;
     hasRight := getTileIdAt mr (x + 1) y =? tileId0;
     hasDown := getTileIdAt mr x (y + 1) =? tileId0;
     hasLeft := getTileIdAt mr (x - 1) y =? tileId0;
     hasUpLeft := getTileIdAt mr (x - 1) (y - 1) =? tileId0;
     hasUpRight := getTileIdAt mr (x + 1) (y - 1) =? tileId0;
     hasDownLeft := getTileIdAt mr (x - 1) (y + 1) =? tileId0;
     hasDownRight := getTileIdAt mr (x + 1) (y + 1) =? tileId0 |}.

Inductive Quadrant : Type := TL | TR | BL | BR.

Record MiniTile : Type := mkMiniTile { col : Z; row : Z }.

(** The local helper [getMiniTile] of [renderRMXPAutotile]. *)
Definition getMiniTile (hasAdjacent1 hasAdjacent2 hasDiagonal : bool)
    (quadrant : Quadrant) : MiniTile :=
  if hasAdjacent1 && hasAdjacent2 then
    if hasDiagonal then
      match quadrant with
      | TL => mkMiniTile 1 3
      | TR => mkMiniTile 2 3
      | BL => mkMiniTile 1 4
      | BR => mkMiniTile 2 4
      end
    else
      match quadrant with
      | TL => mkMiniTile 0 0
      | TR => mkMiniTile 1 0
      | BL => mkMiniTile 4 0
      | BR => mkMiniTile 5 0
      end
  else if negb hasAdjacent1 && negb hasAdjacent2 then
    match quadrant with
    | TL => mkMiniTile 0 2
    | TR => mkMiniTile 5 2
    | BL => mkMiniTile 0 2
    | BR => mkMiniTile 5 2
    end
  else if hasAdjacent1 && negb hasAdjacent2 then
    match quadrant with
    | TL => mkMiniTile 1 2
    | TR => mkMiniTile 2 2
    | BL => mkMiniTile 3 2
    | BR => mkMiniTile 4 2
    end
  else
    match quadrant with
    | TL => mkMiniTile 0 3
    | TR => mkMiniTile 5 3
    | BL => mkMiniTile 0 4
    | BR => mkMiniTile 5 4
    end.

(** The constants [tl], [tr], [bl], [br] of [renderRMXPAutotile]. *)
Definition quadrantTile (n : Neighbors) (quadrant : Quadrant) : MiniTile :=
  match quadrant with
  | TL => getMiniTile (hasLeft n) (hasUp n) (hasUpLeft n) TL
  | TR => getMiniTile (hasRight n) (hasUp n) (hasUpRight n) TR
  | BL => getMiniTile (hasLeft n) (hasDown n) (hasDownLeft n) BL
  | BR => getMiniTile (hasRight n) (hasDown n) (hasDownRight n) BR
  end.

Definition blockingRanges : list (Z * Z) :=
  [ (800, 827);
    (1280, 1400);
    (1536, 1600);
    (1960, 2000);
    (2048, 2200);
    (2304, 2400);
    (3400, 3500) ].

Definition inRange (tileId0 : Z) (r : Z * Z) : bool :=
  (fst r <=? tileId0) && (tileId0 <=? snd r).

(** [isBlockingTile(tileId): boolean] *)
Definition isBlockingTile (tileId0 : Z) : bool :=
  if tileId0 =? 0 then false
  else if tileId0 <? 384 then (2048 <=? tileId0) && (tileId0 <=? 2200)
  else existsb (inRange tileId0) blockingRanges.

(** ** Vocabulary for the statements *)

Definition inBounds (mr : MapRenderer) (x y : Z) : Prop :=
  0 <= x < width mr /\ 0 <= y < height mr.

(** A layer carries no tile at (x,y): the cell is missing or holds 0. *)
Definition emptyAt (x y : Z) (layer : Layer) : Prop :=
  cell layer x y = None \/ cell layer x y = Some 0.

(** [t] is the non-empty tile of the highest layer that has one at (x,y). *)
Definition topmostNonEmpty (ls : list Layer) (x y t : Z) : Prop :=
  exists below layer above,
    ls = below ++ layer :: above /\
    cell layer x y = Some t /\ t <> 0 /\
    Forall (emptyAt x y) above.

(** The eight neighbour offsets with the flag computed for each. *)
Definition neighborOffsets : list (Z * Z * (Neighbors -> bool)) :=
  [ (0, -1, hasUp); (1, 0, hasRight); (0, 1, hasDown); (-1, 0, hasLeft);
    (-1, -1, hasUpLeft); (1, -1, hasUpRight);
    (-1, 1, hasDownLeft); (1, 1, hasDownRight) ].

(** The five cases of the quadrant rule, in the words of the design notes:
    both cardinals and the diagonal, both cardinals without the diagonal,
    no cardinal, only the first cardinal, only the second. *)
Inductive QuadrantClass : Type :=
| Inner | InnerCut | OuterCorner | EdgeHorizontal | EdgeVertical.

Definition spec_classify (cardinal1 cardinal2 diagonal : bool)
    : QuadrantClass :=
  match cardinal1, cardinal2, diagonal with
  | true, true, true => Inner
  | true, true, false => InnerCut
  | false, false, _ => OuterCorner
  | true, false, _ => EdgeHorizontal
  | false, true, _ => EdgeVertical
  end.

(** The (column,row) constants of the pattern sheet, per case and quadrant. *)
Definition patternTable (c : QuadrantClass) (quadrant : Quadrant) : MiniTile :=
  match c, quadrant with
  | Inner, TL => mkMiniTile 1 3
  | Inner, TR => mkMiniTile 2 3
  | Inner, BL => mkMiniTile 1 4
  | Inner, BR => mkMiniTile 2 4
  | InnerCut, TL => mkMiniTile 0 0
  | InnerCut, TR => mkMiniTile 1 0
  | InnerCut, BL => mkMiniTile 4 0
  | InnerCut, BR => mkMiniTile 5 0
  | OuterCorner, TL => mkMiniTile 0 2
  | OuterCorner, TR => mkMiniTile 5 2
  | OuterCorner, BL => mkMiniTile 0 2
  | OuterCorner, BR => mkMiniTile 5 2
  | EdgeHorizontal, TL => mkMiniTile 1 2
  | EdgeHorizontal, TR => mkMiniTile 2 2
  | EdgeHorizontal, BL => mkMiniTile 3 2
  | EdgeHorizontal, BR => mkMiniTile 4 2
  | EdgeVertical, TL => mkMiniTile 0 3
  | EdgeVertical, TR => mkMiniTile 5 3
  | EdgeVertical, BL => mkMiniTile 0 4
  | EdgeVertical, BR => mkMiniTile 5 4
  end.

(** No neighbour of the same type, and all eight of them. *)
Definition isolated : Neighbors :=
  mkNeighbors false false false false false false false false.
Definition surrounded : Neighbors :=
  mkNeighbors true true true true true true true true.

Definition allQuadrants : list Quadrant := [TL; TR; BL; BR].

(** ** Sample data *)

(** A one-row map whose two tiles, 49 and 50, lie in autotile slot 1. *)
Definition twoVariations : MapRenderer :=
  new_MapRenderer (mkMapData 2 1 [ [ [49; 50] ] ]) (mkImage 0 256 4096)
                  TILE_SIZE [].

(** A one-row, two-layer map whose top-most tiles are both 49. *)
Definition twoEqual : MapRenderer :=
  new_MapRenderer (mkMapData 2 1 [ [ [49; 0] ]; [ [0; 49] ] ])
                  (mkImage 0 256 4096) TILE_SIZE [].

(** A renderer as the game builds it, over a map without tiles. *)
Definition emptyMap : MapRenderer :=
  new_MapRenderer (mkMapData 0 0 []) (mkImage 0 256 4096) TILE_SIZE [].

(** ** Collision and grass queries *)

(** The guard [layer && layer[y] && layer[y][x]] and the read that follows
    it: the tile a layer carries at (x,y), if it carries one. *)
Definition tileAt (layer : Layer) (x y : Z) : option Z :=
  match cell layer x y with
  | Some t => if t =? 0 then None else Some t
  | None => None
  end.

(** The [for] loop of [isWalkable], over the layers in index order. *)
Fixpoint noBlockingLayer (visit : list Layer) (x y : Z) : bool :=
  match visit with
  | [] => true
  | layer :: rest =>
      match tileAt layer x y with
      | Some t => if isBlockingTile t then false else noBlockingLayer rest x y
      | None => noBlockingLayer rest x y
      end
  end.

(** [isWalkable(x, y): boolean] *)
Definition isWalkable (mr : MapRenderer) (x y : Z) : bool :=
  if (x <? 0) || (width mr <=? x) || (y <? 0) || (height mr <=? y)
  then false
  else noBlockingLayer (layers mr) x y.

(** The range test shared by the two overlay branches of [isGrassTile]. *)
Definition isTallGrassOverlay (t : Z) : bool :=
  ((1656 <=? t) && (t <=? 1682)) || ((1784 <=? t) && (t <=? 1812)).

(** [this.layers[i]] followed by the guarded read at (x,y). *)
Definition layerTile (mr : MapRenderer) (i x y : Z) : option Z :=
  match js_index (layers mr) i with
  | Some layer => tileAt layer x y
  | None => None
  end.

(** [isGrassTile(x, y): boolean]; the console output is left out.  The
    three blocks are tried in the order layer 2, layer 1, layer 0. *)
Definition isGrassTile (mr : MapRenderer) (x y : Z) : bool :=
  if (x <? 0) || (width mr <=? x) || (y <? 0) || (height mr <=? y)
  then false
  else
    let overlay2 :=
      match layerTile mr 2 x y with
      | Some t => isTallGrassOverlay t
      | None => false
      end in
    if overlay2 then true
    else
      let overlay1 :=
        match layerTile mr 1 x y with
        | Some t => isTallGrassOverlay t
        | None => false
        end in
      if overlay1 then true
      else
        match layerTile mr 0 x y with
        | Some t =>
            if (t =? 389) || (t =? 390) then true
            else if (385 <=? t) && (t <=? 388) then false
            else false
        | None => false
        end.

(** The callback of [startAnimationLoop], run every 500 ms.  It also empties
    [autotileCache], which no modelled method reads. *)
Definition animationTick (mr : MapRenderer) : MapRenderer :=
  {| tileset := tileset mr; autotiles := autotiles mr;
     tileSize := tileSize mr; width := width mr; height := height mr;
     layers := layers mr; tilesetColumns := tilesetColumns mr;
     animationFrame := js_mod (animationFrame mr + 1) 4 |}.

(** A renderer whose only autotile image is a 128x32 four-frame strip. *)
Definition stripMap : MapRenderer :=
  new_MapRenderer (mkMapData 2 2 [ [ [1; 2]; [3; 400] ] ])
                  (mkImage 0 256 4096) TILE_SIZE
                  [ Some (mkImage 1 128 32) ].

(** A 3x2 map with a tree (tile 800) in the middle of the top row, tall grass
    (tile 1660) on the overlay of the bottom-left tile, and a short row in
    the top layer. *)
Definition orchard : MapRenderer :=
  new_MapRenderer
    (mkMapData 3 2
       [ [ [385; 385; 389]; [384; 100; 384] ];
         [ [0; 800; 0]; [1660; 0; 0] ];
         [ [0] ] ])
    (mkImage 0 256 4096) TILE_SIZE [].

(** The quadrant rule in terms of the map: a quadrant sits in one corner of
    the tile and looks at the neighbour beside it, the neighbour above or
    below it, and the neighbour diagonally across that corner. *)
Definition cornerX (quadrant : Quadrant) : Z :=
  match quadrant with TL | BL => -1 | TR | BR => 1 end.

Definition cornerY (quadrant : Quadrant) : Z :=
  match quadrant with TL | TR => -1 | BL | BR => 1 end.

(** The flag recorded for the neighbour at offset (dx,dy). *)
Definition flagAt (n : Neighbors) (dx dy : Z) : bool :=
  match find (fun e => (fst (fst e) =? dx) && (snd (fst e) =? dy))
             neighborOffsets with
  | Some e => snd e n
  | None => false
  end.

(** The neighbour at offset (dx,dy) of (x,y) shows the tile [t]. *)
Definition sameTypeAt (mr : MapRenderer) (t x y dx dy : Z) : bool :=
  getTileIdAt mr (x + dx) (y + dy) =? t.

(** Neighbourhoods that tell the quadrants apart: only the left neighbour,
    and only the neighbour above. *)
Definition onlyLeft : Neighbors :=
  mkNeighbors false false false true false false false false.
Definition onlyUp : Neighbors :=
  mkNeighbors true false false false false false false false.

(** A layer does not block at (x,y): the tile it carries there, if any, is
    not a blocking one. *)
Definition clearAt (x y : Z) (layer : Layer) : Prop :=
  forall t, tileAt layer x y = Some t -> isBlockingTile t = false.

(** Layer [i] carries a tall-grass overlay tile at (x,y). *)
Definition overlayGrassAt (mr : MapRenderer) (i x y : Z) : Prop :=
  exists t, layerTile mr i x y = Some t /\
            (1656 <= t <= 1682 \/ 1784 <= t <= 1812).

(** The base layer carries one of the two tall-grass tiles at (x,y). *)
Definition baseGrassAt (mr : MapRenderer) (x y : Z) : Prop :=
  layerTile mr 0 x y = Some 389 \/ layerTile mr 0 x y = Some 390.

(** [orchard] with its layers in another order. *)
Definition orchardShuffled : MapRenderer :=
  new_MapRenderer
    (mkMapData 3 2
       [ [ [0] ];
         [ [385; 385; 389]; [384; 100; 384] ];
         [ [0; 800; 0]; [1660; 0; 0] ] ])
    (mkImage 0 256 4096) TILE_SIZE [].

End MapRendererTs.

(* ================================================================== *)
(** * The WebSocket server (map-aware variant) *)
(* ================================================================== *)
Module ServerTs.

(** A [WebSocket] object, known by its identity. *)
Definition WebSocket : Type := nat.

(** [ws.readyState] *)
Inductive ReadyState : Type := CONNECTING | OPEN | CLOSING | CLOSED.

Definition isOpen (s : ReadyState) : bool :=
  match s with OPEN => true | _ => false end.

(** [interface Player] *)
Record Player : Type := mkPlayer {
  id : string;
  x : Z;
  y : Z;
  direction : Direction;
  isMoving : bool;
  spriteId : Z;
  mapId : Z
}.

(** [type ServerMessage] *)
Inductive ServerMessage : Type :=
| INIT (id : string) (players : list Player)
| PLAYER_JOIN (player : Player)
| PLAYER_MOVE (id : string) (x y : Z) (direction : Direction)
              (isMoving : bool) (mapId : Z)
| PLAYER_LEAVE (id : string).

(** [type ClientMessage], after [JSON.parse]; [Unrecognized] stands for any
    [type] the [switch] has no case for. *)
Inductive ClientMessage : Type :=
| MOVE (x y : Z) (direction : Direction) (isMoving : bool) (mapId : option Z)
| MAP_TRANSITION (fromMap toMap x y : Z)
| Unrecognized.

(** [const players = new Map<WebSocket, Player>()]: a JavaScript [Map]
    iterates in insertion order, so it is kept as an association list. *)
Definition PlayerMap : Type := list (WebSocket * Player).

Fixpoint map_get (ws : WebSocket) (players : PlayerMap) : option Player :=
  match players with
  | [] => None
  | (k, v) :: rest => if Nat.eqb k ws then Some v else map_get ws rest
  end.

(** [players.set(ws, player)]: an existing key keeps its place, a new key
    goes last. *)
Fixpoint map_set (ws : WebSocket) (player : Player) (players : PlayerMap)
    : PlayerMap :=
  match players with
  | [] => [(ws, player)]
  | (k, v) :: rest =>
      if Nat.eqb k ws then (k, player) :: rest
      else (k, v) :: map_set ws player rest
  end.

(** [players.delete(ws)] *)
Fixpoint map_delete (ws : WebSocket) (players : PlayerMap) : PlayerMap :=
  match players with
  | [] => []
  | (k, v) :: rest =>
      if Nat.eqb k ws then rest else (k, v) :: map_delete ws rest
  end.

(** [Array.from(players.values())] *)
Definition map_values (players : PlayerMap) : list Player :=
  map snd players.

(** One call of [ws.send(JSON.stringify(message))]. *)
Definition Sent : Type := (WebSocket * ServerMessage)%type.

(** [ws !== excludeWs], with [None] for [null]. *)
Definition notExcluded (ws : WebSocket) (excludeWs : option WebSocket) : bool :=
  match excludeWs with
  | Some e => negb (Nat.eqb ws e)
  | None => true
  end.

(** The default spawn of a fresh connection. *)
Definition spawnPlayer (playerId : string) (spriteId0 : Z) : Player :=
  {| id := playerId; x := 20; y := 1; direction := Down; isMoving := false;
     spriteId := spriteId0; mapId := 79 |}.

(** The object literal that [PLAYER_JOIN] carries: a field-by-field copy. *)
Definition copyPlayer (p : Player) : Player :=
  {| id := id p; x := x p; y := y p; direction := direction p;
     isMoving := isMoving p; spriteId := spriteId p; mapId := mapId p |}.

Section Handlers.

(** The state of every socket while one handler runs. *)
Variable readyState : WebSocket -> ReadyState.

(** [function broadcastToMap(mapId, message, excludeWs = null)] *)
Fixpoint broadcastToMap (mapId0 : Z) (message : ServerMessage)
    (excludeWs : option WebSocket) (players : PlayerMap) : list Sent :=
  match players with
  | [] => []
  | (ws, player) :: rest =>
      if (mapId player =? mapId0) && isOpen (readyState ws)
         && notExcluded ws excludeWs
      then (ws, message) :: broadcastToMap mapId0 message excludeWs rest
      else broadcastToMap mapId0 message excludeWs rest
  end.

(** [wss.on('connection', (ws) => ...)], up to the registration of the
    message and close handlers.  [playerId] is the result of [uuidv4()] and
    [spriteId0] that of [Math.floor(Math.random() * AVAILABLE_SPRITES)].
    Every record is created with a numeric [spriteId], so the repair branch
    inside [.map] never runs and the array is returned as filtered. *)
Definition onConnection (ws : WebSocket) (playerId : string) (spriteId0 : Z)
    (players : PlayerMap) : PlayerMap * list Sent :=
  let player := spawnPlayer playerId spriteId0 in
  let players' := map_set ws player players in
  let playersOnSameMap :=
    filter (fun p => mapId p =? mapId player) (map_values players') in
  let initMessage := INIT playerId playersOnSameMap in
  let joinMessage := PLAYER_JOIN (copyPlayer player) in
  (players',
   (ws, initMessage)
     :: broadcastToMap (mapId player) joinMessage (Some ws) players').

(** The record of [ws] after the assignments of the [MOVE] case. *)
Definition movedPlayer (p : Player) (x' y' : Z) (direction' : Direction)
    (isMoving' : bool) (mapId' : option Z) : Player :=
  {| id := id p; x := x'; y := y'; direction := direction';
     isMoving := isMoving'; spriteId := spriteId p;
     mapId := match mapId' with Some m => m | None => mapId p end |}.

(** The record of [ws] after step 2 of the [MAP_TRANSITION] case. *)
Definition transitionedPlayer (p : Player) (toMap x' y' : Z) : Player :=
  {| id := id p; x := x'; y := y'; direction := direction p;
     isMoving := false; spriteId := spriteId p; mapId := toMap |}.

(** Step 4 of the [MAP_TRANSITION] case: [players.forEach] collecting into
    [playersOnNewMap]. *)
Definition playersOnNewMap (toMap : Z) (ws : WebSocket) (players : PlayerMap)
    : list Player :=
  map snd
    (filter (fun e => (mapId (snd e) =? toMap) && negb (Nat.eqb (fst e) ws))
            players).

(** [ws.on('message', ...)] for the socket [ws] whose handler closed over
    [playerId].  The record stored for [ws] is mutated in place, which on
    the association list is a [map_set] at an existing key. *)
Definition onMessage (ws : WebSocket) (playerId : string)
    (data : ClientMessage) (players : PlayerMap) : PlayerMap * list Sent :=
  match data with
  | MOVE x' y' direction' isMoving' mapId' =>
      match map_get ws players with
      | Some p =>
          let p' := movedPlayer p x' y' direction' isMoving' mapId' in
          let players' := map_set ws p' players in
          let moveMessage :=
            PLAYER_MOVE playerId (x p') (y p') (direction p') (isMoving p')
                        (mapId p') in
          (players', broadcastToMap (mapId p') moveMessage (Some ws) players')
      | None => (players, [])
      end
  | MAP_TRANSITION fromMap toMap x' y' =>
      match map_get ws players with
      | Some p =>
          let leaveMessage := PLAYER_LEAVE playerId in
          let sent1 := broadcastToMap fromMap leaveMessage (Some ws) players in
          let p' := transitionedPlayer p toMap x' y' in
          let players' := map_set ws p' players in
          let joinMessage := PLAYER_JOIN (copyPlayer p') in
          let sent3 := broadcastToMap toMap joinMessage (Some ws) players' in
          let sent4 :=
            map (fun otherPlayer => (ws, PLAYER_JOIN otherPlayer))
                (playersOnNewMap toMap ws players') in
          (players', sent1 ++ sent3 ++ sent4)
      | None => (players, [])
      end
  | Unrecognized => (players, [])
  end.

(** [ws.on('close', ...)] *)
Definition onClose (ws : WebSocket) (playerId : string)
    (players : PlayerMap) : PlayerMap * list Sent :=
  let disconnectedPlayer := map_get ws players in
  let players' := map_delete ws players in
  match disconnectedPlayer with
  | Some dp =>
      (players',
       broadcastToMap (mapId dp) (PLAYER_LEAVE playerId) None players')
  | None => (players', [])
  end.

End Handlers.

(** ** Vocabulary for the statements *)

(** The messages one socket was sent, in order. *)
Definition sentTo (ws : WebSocket) (out : list Sent) : list ServerMessage :=
  map snd (filter (fun s => Nat.eqb (fst s) ws) out).

(** The socket [ws] has a record and that record is on map [m]. *)
Definition onMap (players : PlayerMap) (m : Z) (ws : WebSocket) : bool :=
  match map_get ws players with
  | Some p => mapId p =? m
  | None => false
  end.

(** The records on map [m], in registry order. *)
Definition recordsOnMap (m : Z) (players : PlayerMap) : list Player :=
  filter (fun p => mapId p =? m) (map_values players).

(** The sockets a map-scoped broadcast reaches, in registry order. *)
Definition recipients (readyState : WebSocket -> ReadyState) (m : Z)
    (excludeWs : option WebSocket) (players : PlayerMap) : list WebSocket :=
  map fst
    (filter (fun e => (mapId (snd e) =? m) && isOpen (readyState (fst e))
                      && notExcluded (fst e) excludeWs)
            players).

(** A [Map] holds each key once. *)
Definition uniqueKeys (players : PlayerMap) : Prop :=
  NoDup (map fst players).

Definition isLeave (m : ServerMessage) : bool :=
  match m with PLAYER_LEAVE _ => true | _ => false end.

Definition isJoin (m : ServerMessage) : bool :=
  match m with PLAYER_JOIN _ => true | _ => false end.

(** ** Sample data *)

(** Every socket open. *)
Definition allOpen : WebSocket -> ReadyState := fun _ => OPEN.

(** Three sockets. *)
Definition sockA : WebSocket := 1%nat.
Definition sockB : WebSocket := 2%nat.
Definition sockC : WebSocket := 3%nat.

(** The registry after A, B and C connected and C walked from map 79 to
    map 5. *)
Definition lobby : PlayerMap :=
  let r1 := fst (onConnection allOpen sockA "A" 0 []) in
  let r2 := fst (onConnection allOpen sockB "B" 1 r1) in
  let r3 := fst (onConnection allOpen sockC "C" 2 r2) in
  fst (onMessage allOpen sockC "C" (MAP_TRANSITION 79 5 10 18) r3).

End ServerTs.

(* ================================================================== *)
(** * Map transitions ([MAP_TRANSITIONS], [checkTransition]) *)
(* ================================================================== *)
Module MapTransitionsTs.

Inductive Edge : Type := north | south | east | west.

(** [interface MapTransition] *)
Record MapTransition : Type := mkMapTransition {
  fromMap : Z;
  edge : Edge;
  toMap : Z;
  spawnX : Z;
  spawnY : Z;
  minTile : option Z;
  maxTile : option Z
}.

(** [export const MAP_TRANSITIONS] *)
Definition MAP_TRANSITIONS : list MapTransition :=
  [ mkMapTransition 79 north 5 20 22 (Some 20) (Some 21);
    mkMapTransition 5 south 79 20 1 (Some 20) (Some 21) ].

(** The [switch (transition.edge)] that sets [triggered]. *)
Definition triggered (tr : MapTransition) (playerX playerY mapWidth mapHeight : Z)
    : bool :=
  match edge tr with
  | north => playerY <=? 0
  | south => mapHeight - 1 <=? playerY
  | east => mapWidth - 1 <=? playerX
  | west => playerX <=? 0
  end.

(** The tile-range test; [false] is the [continue] of the source. *)
Definition inTileRange (tr : MapTransition) (playerX playerY : Z) : bool :=
  match minTile tr, maxTile tr with
  | Some lo, Some hi =>
      let checkCoord :=
        match edge tr with
        | north | south => playerX
        | east | west => playerY
        end in
      negb ((checkCoord <? lo) || (hi <? checkCoord))
  | _, _ => true
  end.

(** The [for ... of] loop of [checkTransition] over a rule table. *)
Fixpoint checkTransitionIn (table : list MapTransition)
    (currentMap playerX playerY mapWidth mapHeight : Z)
    : option MapTransition :=
  match table with
  | [] => None
  | tr :: rest =>
      if negb (fromMap tr =? currentMap) then
        checkTransitionIn rest currentMap playerX playerY mapWidth mapHeight
      else if triggered tr playerX playerY mapWidth mapHeight then
        if inTileRange tr playerX playerY then Some tr
        else
          checkTransitionIn rest currentMap playerX playerY mapWidth mapHeight
      else
        checkTransitionIn rest currentMap playerX playerY mapWidth mapHeight
  end.

(** [export function checkTransition(currentMap, playerX, playerY, mapWidth,
    mapHeight)] *)
Definition checkTransition (currentMap playerX playerY mapWidth mapHeight : Z)
    : option MapTransition :=
  checkTransitionIn MAP_TRANSITIONS currentMap playerX playerY
                    mapWidth mapHeight.

(** A rule applies at a position: it is for this map, the position touches
    its edge, and the position is inside its tile range. *)
Definition applies (currentMap playerX playerY mapWidth mapHeight : Z)
    (tr : MapTransition) : bool :=
  (fromMap tr =? currentMap)
  && triggered tr playerX playerY mapWidth mapHeight
  && inTileRange tr playerX playerY.

End MapTransitionsTs.

(* ================================================================== *)
(** * client/src/engine/animation/GrassAnimation.ts *)
(* ================================================================== *)
Module GrassAnimationTs.

(** [interface GrassAnimationInstance] *)
Record GrassAnimationInstance : Type := mkInstance {
  x : Z;
  y : Z;
  frame : Z;
  timer : float;
  maxFrames : Z
}.

(** The fields of [class GrassAnimationManager]. *)
Record GrassAnimationManager : Type := mkManager {
  animations : list GrassAnimationInstance;
  tileSize : Z;
  frameDuration : float
}.

(** [constructor(tileSize)] *)
Definition new_GrassAnimationManager (tileSize0 : Z) : GrassAnimationManager :=
  {| animations := []; tileSize := tileSize0; frameDuration := 0.08%float |}.

(** [this.animations.some(anim => anim.x === tileX && anim.y === tileY)] *)
Definition existsAt (tileX tileY : Z) (l : list GrassAnimationInstance) : bool :=
  existsb (fun anim => (x anim =? tileX) && (y anim =? tileY)) l.

(** [trigger(tileX, tileY): void] *)
Definition trigger (tileX tileY : Z) (m : GrassAnimationManager)
    : GrassAnimationManager :=
  if existsAt tileX tileY (animations m) then m
  else
    {| animations :=
         animations m ++ [mkInstance tileX tileY 0 0%float 4];
       tileSize := tileSize m; frameDuration := frameDuration m |}.

(** The callback of the [filter] in [update]: the instance as the callback
    leaves it, or [None] when the callback returns [false]. *)
Definition advance (frameDuration0 deltaTime : float)
    (anim : GrassAnimationInstance) : option GrassAnimationInstance :=
  let timer1 := (timer anim + deltaTime)%float in
  if (frameDuration0 <=? timer1)%float then
    let frame1 := frame anim + 1 in
    if maxFrames anim <=? frame1 then None
    else Some (mkInstance (x anim) (y anim) frame1
                          (timer1 - frameDuration0)%float (maxFrames anim))
  else Some (mkInstance (x anim) (y anim) (frame anim) timer1 (maxFrames anim)).

Fixpoint filterAdvance (frameDuration0 deltaTime : float)
    (l : list GrassAnimationInstance) : list GrassAnimationInstance :=
  match l with
  | [] => []
  | anim :: rest =>
      match advance frameDuration0 deltaTime anim with
      | Some anim' => anim' :: filterAdvance frameDuration0 deltaTime rest
      | None => filterAdvance frameDuration0 deltaTime rest
      end
  end.

(** [update(deltaTime): void] *)
Definition update (deltaTime : float) (m : GrassAnimationManager)
    : GrassAnimationManager :=
  {| animations := filterAdvance (frameDuration m) deltaTime (animations m);
     tileSize := tileSize m; frameDuration := frameDuration m |}.

(** [clear(): void] *)
Definition clear (m : GrassAnimationManager) : GrassAnimationManager :=
  {| animations := []; tileSize := tileSize m;
     frameDuration := frameDuration m |}.

Inductive Op : Type :=
| OpTrigger (tileX tileY : Z)
| OpUpdate (deltaTime : float)
| OpClear.

Definition apply_op (o : Op) (m : GrassAnimationManager)
    : GrassAnimationManager :=
  match o with
  | OpTrigger tx ty => trigger tx ty m
  | OpUpdate dt => update dt m
  | OpClear => clear m
  end.

Definition run (ops : list Op) (m : GrassAnimationManager)
    : GrassAnimationManager :=
  fold_left (fun q o => apply_op o q) ops m.

Definition position (anim : GrassAnimationInstance) : Z * Z :=
  (x anim, y anim).

(** Every running animation is a four-frame one that has not finished. *)
Definition frameInRange (anim : GrassAnimationInstance) : Prop :=
  maxFrames anim = 4 /\ 0 <= frame anim < 4.

(** At most one animation per tile, each within its frames. *)
Definition wellFormed (m : GrassAnimationManager) : Prop :=
  NoDup (map position (animations m)) /\ Forall frameInRange (animations m).

Definition sample_grass_ops : list Op :=
  [ OpTrigger 3 4; OpUpdate 0.05%float; OpTrigger 3 4; OpTrigger 5 4;
    OpUpdate 0.05%float; OpUpdate 0.1%float; OpUpdate 0.1%float;
    OpUpdate 0.1%float ].

End GrassAnimationTs.

(* ================================================================== *)
(** * client/src/engine/InputHandler.ts *)
(* ================================================================== *)
Module InputHandlerTs.

(** [keysHeld: Set<string>], in insertion order. *)
Definition KeySet : Type := list string.

Definition set_has (key : string) (s : KeySet) : bool :=
  existsb (String.eqb key) s.

Definition set_add (key : string) (s : KeySet) : KeySet :=
  if set_has key s then s else s ++ [key].

Fixpoint set_delete (key : string) (s : KeySet) : KeySet :=
  match s with
  | [] => []
  | k :: rest => if String.eqb k key then rest else k :: set_delete key rest
  end.

(** [String.prototype.toLowerCase] on key names: the letters A to Z are
    folded, every other character is kept. *)
Definition lower_ascii (c : ascii) : ascii :=
  let n := nat_of_ascii c in
  if (Nat.leb 65 n && Nat.leb n 90)%bool then ascii_of_nat (n + 32) else c.

Fixpoint toLowerCase (s : string) : string :=
  match s with
  | EmptyString => EmptyString
  | String c rest => String (lower_ascii c) (toLowerCase rest)
  end.

(** The array literal tested in [_handleKeyDown]. *)
Definition preventedKeys : list string :=
  [ "ArrowUp"; "ArrowDown"; "ArrowLeft"; "ArrowRight";
    "w"; "a"; "s"; "d" ]%string.

(** [_handleKeyDown(event)]: the new key set, and whether
    [event.preventDefault()] was called. *)
Definition handleKeyDown (key : string) (keysHeld : KeySet) : KeySet * bool :=
  (set_add key keysHeld,
   existsb (String.eqb (toLowerCase key)) preventedKeys).

(** [_handleKeyUp(event)] *)
Definition handleKeyUp (key : string) (keysHeld : KeySet) : KeySet :=
  set_delete key keysHeld.

(** The [if / else if] chain of [update] that sets [dx] and [dy]. *)
Definition heldDelta (keysHeld : KeySet) : Z * Z :=
  if set_has "ArrowUp" keysHeld || set_has "w" keysHeld
     || set_has "W" keysHeld then (0, -1)
  else if set_has "ArrowDown" keysHeld || set_has "s" keysHeld
          || set_has "S" keysHeld then (0, 1)
  else if set_has "ArrowLeft" keysHeld || set_has "a" keysHeld
          || set_has "A" keysHeld then (-1, 0)
  else if set_has "ArrowRight" keysHeld || set_has "d" keysHeld
          || set_has "D" keysHeld then (1, 0)
  else (0, 0).

Inductive Effect : Type :=
| LogMove (direction : string) (x y targetX targetY : Z)
| LogBlocked (direction : string) (x y targetX targetY : Z)
| FromPlayer (e : PlayerTs.Effect).

(** [update(): void] *)
Definition update (keysHeld : KeySet) (mapRenderer : MapRendererTs.MapRenderer)
    (player : PlayerTs.Player) : PlayerTs.Player * list Effect :=
  if PlayerTs.isMoving player then (player, [])
  else
    let dx := fst (heldDelta keysHeld) in
    let dy := snd (heldDelta keysHeld) in
    if (dx =? 0) && (dy =? 0) then (player, [])
    else
      let targetX := PlayerTs.x player + dx in
      let targetY := PlayerTs.y player + dy in
      let direction :=
        if dx =? 1 then "RIGHT"%string
        else if dx =? -1 then "LEFT"%string
        else if dy =? 1 then "DOWN"%string else "UP"%string in
      if MapRendererTs.isWalkable mapRenderer targetX targetY then
        let r := PlayerTs.startMove dx dy player in
        (snd (fst r),
         LogMove direction (PlayerTs.x player) (PlayerTs.y player)
                 targetX targetY
           :: map FromPlayer (snd r))
      else
        (player,
         [LogBlocked direction (PlayerTs.x player) (PlayerTs.y player)
                     targetX targetY]).

(** ** The local player under keyboard control *)

(** What happens between two frames and within one: key events, the input
    poll and the motion update. *)
Inductive Event : Type :=
| KeyDown (key : string)
| KeyUp (key : string)
| PollInput
| Tick (deltaTime : float).

Definition react (mapRenderer : MapRendererTs.MapRenderer) (ev : Event)
    (st : KeySet * PlayerTs.Player) : KeySet * PlayerTs.Player :=
  match ev with
  | KeyDown key => (fst (handleKeyDown key (fst st)), snd st)
  | KeyUp key => (handleKeyUp key (fst st), snd st)
  | PollInput => (fst st, fst (update (fst st) mapRenderer (snd st)))
  | Tick dt => (fst st, fst (PlayerTs.update dt (snd st)))
  end.

Definition play (mapRenderer : MapRendererTs.MapRenderer) (evs : list Event)
    (st : KeySet * PlayerTs.Player) : KeySet * PlayerTs.Player :=
  fold_left (fun q ev => react mapRenderer ev q) evs st.

(** The player stands on a walkable tile and heads for one. *)
Definition onWalkableGround (mapRenderer : MapRendererTs.MapRenderer)
    (p : PlayerTs.Player) : Prop :=
  MapRendererTs.isWalkable mapRenderer (PlayerTs.x p) (PlayerTs.y p) = true /\
  MapRendererTs.isWalkable mapRenderer (PlayerTs.targetX p) (PlayerTs.targetY p)
  = true.

Definition sample_events : list Event :=
  [ KeyDown "ArrowUp"; PollInput; KeyUp "ArrowUp"; KeyDown "d"; PollInput;
    Tick 0.3%float; PollInput; Tick 0.1%float; Tick 0.3%float;
    KeyDown "ArrowDown"; PollInput; Tick 0.5%float ]%string.

(** A player on the bottom-left tile of [MapRendererTs.orchard]. *)
Definition walker : PlayerTs.Player := PlayerTs.new_Player 0 1 0 32.

End InputHandlerTs.

(* ================================================================== *)
(** * The client's [NetworkSystem] *)
(* ================================================================== *)
Module NetworkSystemTs.

(** [interface PlayerData] has the fields of the server's [Player]. *)
Definition PlayerData : Type := ServerTs.Player.

(** The fields of [class NetworkSystem]; [socket] records whether the field
    holds a socket. *)
Record NetworkSystem : Type := mkNetworkSystem {
  socket : bool;
  connected : bool;
  playerId : option string;
  currentMapId : Z
}.

(** [constructor(callbacks, initialMapId = 79)] *)
Definition new_NetworkSystem (initialMapId : Z) : NetworkSystem :=
  {| socket := false; connected := false; playerId := None;
     currentMapId := initialMapId |}.

(** Invocations of [interface NetworkCallbacks], in program order. *)
Inductive Callback : Type :=
| onInitLocalPlayer (data : PlayerData)
| onAddRemotePlayer (data : PlayerData)
| onRemoveRemotePlayer (id : string)
| onUpdateRemotePlayer (id : string) (x y : Z) (direction : Direction)
                       (isMoving : bool).

(** [p.id === this.playerId] *)
Definition isSelf (me : option string) (id0 : string) : bool :=
  match me with
  | Some i => String.eqb id0 i
  | None => false
  end.

(** [private handleMessage(message)]; the console output is left out. *)
Definition handleMessage (message : ServerTs.ServerMessage)
    (ns : NetworkSystem) : NetworkSystem * list Callback :=
  match message with
  | ServerTs.INIT id0 players =>
      let ns' :=
        {| socket := socket ns; connected := connected ns;
           playerId := Some id0; currentMapId := currentMapId ns |} in
      let localPlayerData :=
        find (fun p => isSelf (playerId ns') (ServerTs.id p)) players in
      (ns',
       match localPlayerData with
       | Some d => [onInitLocalPlayer d]
       | None => []
       end
       ++ map onAddRemotePlayer
            (filter (fun p => negb (isSelf (playerId ns') (ServerTs.id p)))
                    players))
  | ServerTs.PLAYER_JOIN player =>
      (ns,
       if negb (isSelf (playerId ns) (ServerTs.id player))
       then [onAddRemotePlayer player] else [])
  | ServerTs.PLAYER_MOVE id0 x y direction isMoving _ =>
      (ns,
       if negb (isSelf (playerId ns) id0)
       then [onUpdateRemotePlayer id0 x y direction isMoving] else [])
  | ServerTs.PLAYER_LEAVE id0 => (ns, [onRemoveRemotePlayer id0])
  end.

(** [sendMove(x, y, direction, isMoving)]: the messages handed to
    [socket.send]. *)
Definition sendMove (x y : Z) (direction : Direction) (isMoving : bool)
    (ns : NetworkSystem) : list ServerTs.ClientMessage :=
  if connected ns && socket ns
  then [ServerTs.MOVE x y direction isMoving (Some (currentMapId ns))]
  else [].

(** [sendMapTransition(oldMapId, newMapId, newX, newY)] *)
Definition sendMapTransition (oldMapId newMapId newX newY : Z)
    (ns : NetworkSystem) : NetworkSystem * list ServerTs.ClientMessage :=
  if connected ns && socket ns
  then ({| socket := socket ns; connected := connected ns;
           playerId := playerId ns; currentMapId := newMapId |},
        [ServerTs.MAP_TRANSITION oldMapId newMapId newX newY])
  else (ns, []).

(** [connect()] creates the socket and [onopen] marks it connected. *)
Definition connectedSystem (ns : NetworkSystem) : NetworkSystem :=
  {| socket := true; connected := true; playerId := playerId ns;
     currentMapId := currentMapId ns |}.

(** The server handling, in order, the messages one client sent. *)
Definition deliver (readyState : ServerTs.WebSocket -> ServerTs.ReadyState)
    (ws : ServerTs.WebSocket) (pid : string)
    (msgs : list ServerTs.ClientMessage) (players : ServerTs.PlayerMap)
    : ServerTs.PlayerMap :=
  fold_left (fun reg m => fst (ServerTs.onMessage readyState ws pid m reg))
            msgs players.

(** ** A client talking to the server *)

(** What the game asks of the network: report a move, or a change of map. *)
Inductive ClientOp : Type :=
| DoMove (x y : Z) (direction : Direction) (isMoving : bool)
| DoTransition (oldMapId newMapId newX newY : Z).

Definition clientSend (o : ClientOp) (ns : NetworkSystem)
    : NetworkSystem * list ServerTs.ClientMessage :=
  match o with
  | DoMove x y d m => (ns, sendMove x y d m ns)
  | DoTransition a b nx ny => sendMapTransition a b nx ny ns
  end.

(** The client performs the operations in order and the server handles
    each message as it arrives. *)
Definition session (readyState : ServerTs.WebSocket -> ServerTs.ReadyState)
    (ws : ServerTs.WebSocket) (pid : string) (ops : list ClientOp)
    (st : NetworkSystem * ServerTs.PlayerMap)
    : NetworkSystem * ServerTs.PlayerMap :=
  fold_left
    (fun q o =>
       (fst (clientSend o (fst q)),
        deliver readyState ws pid (snd (clientSend o (fst q))) (snd q)))
    ops st.

(** A connected client that believes it is on map 79. *)
Definition onlineClient : NetworkSystem :=
  connectedSystem (new_NetworkSystem 79).

Definition sample_client_ops : list ClientOp :=
  [ DoMove 20 0 Up false; DoTransition 79 5 20 22; DoMove 20 21 Up true ].

End NetworkSystemTs.

(* ================================================================== *)
(** * Properties of the movement state machine *)
(* ================================================================== *)
Module PlayerFacts.
Import PlayerTs.

Lemma unit_delta_cases (dx dy : Z) :
  unit_delta dx dy ->
  (dx = 0 /\ dy = 1) \/ (dx = 0 /\ dy = -1) \/
  (dx = 1 /\ dy = 0) \/ (dx = -1 /\ dy = 0).
Proof. unfold unit_delta. lia. Qed.

Lemma js_add_exact (a b : Z) :
  Z.abs (a + b) <= EXACT_LIMIT -> js_add a b = a + b.
Proof.
  intros Hb. unfold js_add, js_round.
  destruct (Z.leb_spec (Z.abs (a + b)) EXACT_LIMIT); [reflexivity|lia].
Qed.

(** For a player whose coordinates have magnitude at most 2^53 - 1, the
    sums and differences that [startMove] with a unit delta and [setState]
    take, rounded as doubles round them, are those of the integers. *)
Lemma coordinate_sums_are_exact (p : Player) (dx dy : Z) :
  coordsWithin MAX_SAFE_INTEGER p ->
  unit_delta dx dy ->
  js_add (x p) dx = x p + dx /\ js_add (y p) dy = y p + dy /\
  js_add (x p) 1 = x p + 1 /\ js_sub (x p) 1 = x p - 1 /\
  js_add (y p) 1 = y p + 1 /\ js_sub (y p) 1 = y p - 1.
Proof.
  intros (Hx & Hy & _ & _) Hd. apply unit_delta_cases in Hd.
  unfold within, MAX_SAFE_INTEGER in *.
  assert (Hsub : forall a, - 9007199254740991 <= a <= 9007199254740991 ->
                           js_sub a 1 = a - 1).
  { intros a Ha. unfold js_sub, js_round.
    destruct (Z.leb_spec (Z.abs (a - 1)) EXACT_LIMIT);
      [reflexivity|unfold EXACT_LIMIT in *; lia]. }
  repeat split;
    first [ apply js_add_exact; unfold EXACT_LIMIT; lia
          | apply Hsub; assumption ].
Qed.

(** Past that range they are not: 2^53 + 1 rounds back to 2^53, and
    2^53 + 3, halfway between two doubles, to 2^53 + 4. *)
Example sum_past_exact_range :
  js_add 9007199254740992 1 = 9007199254740992 /\
  js_add 9007199254740992 3 = 9007199254740996 /\
  js_sub (-9007199254740992) 1 = -9007199254740992.
Proof. repeat split. Qed.

Lemma startMove_preserves (dx dy : Z) (p : Player) :
  unit_delta dx dy -> motion_invariant p ->
  motion_invariant (snd (fst (startMove dx dy p))).
Proof.
  intros Hd Hinv. unfold startMove.
  destruct (isMoving p) eqn:Hm; [exact Hinv|].
  unfold motion_invariant, one_tile_away; cbn.
  apply unit_delta_cases in Hd. lia.
Qed.

Lemma update_preserves (dt : float) (p : Player) :
  motion_invariant p -> motion_invariant (fst (update dt p)).
Proof.
  intros Hinv. unfold update.
  destruct (isMoving p) eqn:Hm; [|exact Hinv].
  destruct (1 <=? moveProgress p + moveSpeed p * dt)%float.
  - unfold motion_invariant, at_rest; cbn. split; reflexivity.
  - unfold motion_invariant in *. cbn. rewrite Hm in *. exact Hinv.
Qed.

Lemma setState_establishes (x' y' : Z) (d : Direction) (m : bool) (p : Player) :
  motion_invariant (setState x' y' d m p).
Proof.
  unfold motion_invariant, one_tile_away, at_rest, setState; cbn.
  destruct m, d; cbn; lia.
Qed.

Lemma apply_op_preserves (o : Op) (p : Player) :
  admissible o -> motion_invariant p -> motion_invariant (apply_op o p).
Proof.
  destruct o as [dx dy|dt|x' y' d m]; cbn; intros Ha Hinv.
  - now apply startMove_preserves.
  - now apply update_preserves.
  - apply setState_establishes.
Qed.

Lemma run_preserves (ops : list Op) :
  forall p, Forall admissible ops -> motion_invariant p ->
            motion_invariant (run ops p).
Proof.
  induction ops as [|o ops IH]; intros p Hall Hinv; cbn.
  - exact Hinv.
  - inversion Hall as [|? ? Ho Hrest]; subst.
    apply IH; [exact Hrest|]. now apply apply_op_preserves.
Qed.

(** An accepted move: the target is the start tile plus the delta, and the
    callback is told the start tile. *)
Example startMove_accepted :
  startMove 1 0 standing
  = (true, stepping, [LogStartMove 3 4 4 4; OnMove 3 4 Right true])
  /\ (x stepping, y stepping, targetX stepping, targetY stepping)
     = (3, 4, 4, 4).
Proof. split; reflexivity. Qed.

(** Movement round trip: a quarter of a second at 4.5 tiles per second
    completes the step. *)
Example move_round_trip :
  let p := fst (update 0.25%float stepping) in
  (x p, y p, isMoving p, direction p) = (4, 4, false, Right)
  /\ snd (update 0.25%float stepping)
     = [LogMovementComplete 4 4; OnMove 4 4 Right false].
Proof. split; reflexivity. Qed.

(** C8. A [startMove] issued while the player is already moving returns
    [false] and changes nothing: the player record (position, target,
    direction, progress, animation state) is the one it was given, and the
    [onMove] callback is not invoked. *)
Theorem startMove_while_moving_is_noop (dx dy : Z) (p : Player) :
  isMoving p = true ->
  fst (fst (startMove dx dy p)) = false /\
  snd (fst (startMove dx dy p)) = p /\
  existsb is_OnMove (snd (startMove dx dy p)) = false.
Proof.
  intros Hm. unfold startMove. rewrite Hm. cbn. repeat split.
Qed.

Lemma startMove_while_moving_is_noop_witness :
  isMoving stepping = true /\
  fst (fst (startMove 0 1 stepping)) = false /\
  snd (fst (startMove 0 1 stepping)) = stepping /\
  existsb is_OnMove (snd (startMove 0 1 stepping)) = false.
Proof.
  split; [reflexivity|].
  apply (startMove_while_moving_is_noop 0 1 stepping). reflexivity.
Defined.

Lemma admissibleWithin_admissible (B : Z) (o : Op) :
  admissibleWithin B o -> admissible o.
Proof. destruct o; cbn; auto. Qed.

Lemma coordsWithin_mono (b c : Z) (p : Player) :
  b <= c -> coordsWithin b p -> coordsWithin c p.
Proof. unfold coordsWithin, within. lia. Qed.

Lemma apply_op_within (B k : Z) (o : Op) (p : Player) :
  0 <= k ->
  admissibleWithin B o ->
  coordsWithin (B + k) p ->
  coordsWithin (B + k + 1) (apply_op o p).
Proof.
  intros Hk Ho Hp. destruct o as [dx dy|dt|x' y' d m]; cbn in *.
  - unfold startMove. destruct (isMoving p); cbn.
    + apply (coordsWithin_mono (B + k)); [lia|exact Hp].
    + apply unit_delta_cases in Ho.
      unfold coordsWithin, within in *. cbn. lia.
  - unfold update. destruct (isMoving p); cbn.
    + destruct (1 <=? moveProgress p + moveSpeed p * dt)%float;
        unfold coordsWithin, within in *; cbn; lia.
    + apply (coordsWithin_mono (B + k)); [lia|exact Hp].
  - unfold coordsWithin, within, setState in *. cbn.
    destruct m, d; lia.
Qed.

Lemma run_within (B : Z) (ops : list Op) :
  forall (k : Z) (p : Player),
    0 <= k ->
    Forall (admissibleWithin B) ops ->
    coordsWithin (B + k) p ->
    coordsWithin (B + k + Z.of_nat (List.length ops)) (run ops p).
Proof.
  induction ops as [|o ops IH]; intros k p Hk Hall Hp.
  - cbn. now rewrite Z.add_0_r.
  - inversion Hall as [|? ? Ho Hrest]; subst.
    cbn [run fold_left List.length]. rewrite Nat2Z.inj_succ.
    replace (B + k + Z.succ (Z.of_nat (List.length ops)))
      with (B + (k + 1) + Z.of_nat (List.length ops)) by lia.
    apply (IH (k + 1) (apply_op o p)); [lia|exact Hrest|].
    replace (B + (k + 1)) with (B + k + 1) by lia.
    now apply apply_op_within.
Qed.

(** On doubles a reported position past the exact range is kept as it is,
    while one inside it gives a target one tile ahead. *)
Example setState_on_doubles :
  PlayerDoubleTs.motion_invariant PlayerDoubleTs.nearby = true /\
  (PlayerDoubleTs.x PlayerDoubleTs.nearby,
   PlayerDoubleTs.targetX PlayerDoubleTs.nearby) = (5%float, 6%float) /\
  PlayerDoubleTs.targetX
    (snd (fst (PlayerDoubleTs.startMove 1 0
                 (PlayerDoubleTs.new_Player 9007199254740992 4 0 32))))
  = 9007199254740992%float.
Proof. repeat split. Qed.

(** C9, as stated, fails: an idle player whose target is its position is
    told by [setState] that it moves right from tile (2^53, 4); in doubles
    2^53 + 1 is 2^53, so the player is moving with its target on its
    position, not one tile away. *)
Lemma setState_past_exact_range_breaks_invariant :
  PlayerDoubleTs.isMoving PlayerDoubleTs.idle = false /\
  PlayerDoubleTs.at_rest PlayerDoubleTs.idle = true /\
  PlayerDoubleTs.isMoving PlayerDoubleTs.faraway = true /\
  PlayerDoubleTs.targetX PlayerDoubleTs.faraway
  = PlayerDoubleTs.x PlayerDoubleTs.faraway /\
  PlayerDoubleTs.targetY PlayerDoubleTs.faraway
  = PlayerDoubleTs.y PlayerDoubleTs.faraway /\
  PlayerDoubleTs.motion_invariant PlayerDoubleTs.faraway = false.
Proof. repeat split. Qed.

(** C9 (amended). From an idle player whose target is its position and
    whose coordinates are integers of magnitude at most B, every sequence
    of [startMove] with a unit delta, [update] with a non-negative elapsed
    time and [setState] with any direction and an integer position of
    magnitude at most B, with B plus the number of operations at most
    2^53 - 1, keeps at every step the invariant that a moving player has its
    target exactly one tile away along one axis and an idle player has its
    target on its position; every coordinate along the way is an integer of
    magnitude at most 2^53 - 1, the range in which the additions of the
    source are exact. *)
Theorem motion_invariant_preserved (B : Z) (p : Player) (ops : list Op) :
  isMoving p = false ->
  at_rest p ->
  within B (x p) ->
  within B (y p) ->
  Forall (admissibleWithin B) ops ->
  B + Z.of_nat (List.length ops) <= MAX_SAFE_INTEGER ->
  forall j,
    motion_invariant (run (firstn j ops) p) /\
    coordsWithin MAX_SAFE_INTEGER (run (firstn j ops) p).
Proof.
  intros Hidle [Htx Hty] Hx Hy Hops Hlen j.
  assert (Hpre : Forall (admissibleWithin B) (firstn j ops)).
  { rewrite <- (firstn_skipn j ops) in Hops.
    apply Forall_app in Hops. exact (proj1 Hops). }
  split.
  - apply run_preserves.
    + eapply Forall_impl; [|exact Hpre].
      intros o. apply admissibleWithin_admissible.
    + unfold motion_invariant. rewrite Hidle. now split.
  - pose proof (length_firstn j ops) as Hj.
    apply (coordsWithin_mono (B + 0 + Z.of_nat (List.length (firstn j ops))));
      [lia|].
    apply run_within; [lia|exact Hpre|].
    unfold coordsWithin. rewrite Htx, Hty, Z.add_0_r. tauto.
Qed.

Lemma motion_invariant_preserved_witness :
  isMoving standing = false /\ at_rest standing /\
  within 7 (x standing) /\ within 7 (y standing) /\
  Forall (admissibleWithin 7) sample_ops /\
  7 + Z.of_nat (List.length sample_ops) <= MAX_SAFE_INTEGER /\
  motion_invariant (run (firstn 7 sample_ops) standing).
Proof.
  assert (Hops : Forall (admissibleWithin 7) sample_ops).
  { unfold sample_ops.
    repeat (apply Forall_cons;
            [cbn; unfold unit_delta, within;
             first [reflexivity | lia]|]).
    apply Forall_nil. }
  assert (Hrest : at_rest standing) by (split; reflexivity).
  assert (Hx : within 7 (x standing)) by (unfold within; cbn; lia).
  assert (Hy : within 7 (y standing)) by (unfold within; cbn; lia).
  assert (Hlen : 7 + Z.of_nat (List.length sample_ops) <= MAX_SAFE_INTEGER)
    by discriminate.
  split; [reflexivity|]. split; [exact Hrest|].
  split; [exact Hx|]. split; [exact Hy|].
  split; [exact Hops|]. split; [exact Hlen|].
  exact (proj1 (motion_invariant_preserved 7 standing sample_ops eq_refl
                  Hrest Hx Hy Hops Hlen 7%nat)).
Defined.

(** C10. [update] on an idle player changes no field and produces no effect,
    whatever the elapsed time. *)
Theorem update_idle_changes_nothing (dt : float) (p : Player) :
  isMoving p = false -> update dt p = (p, []).
Proof. intros Hm. unfold update. now rewrite Hm. Qed.

Lemma update_idle_changes_nothing_witness :
  isMoving standing = false /\ update 0.5%float standing = (standing, []).
Proof.
  split; [reflexivity|].
  apply (update_idle_changes_nothing 0.5%float standing). reflexivity.
Defined.

(** The walk-cycle timer moves only while the player is moving. *)
Lemma animationTimer_changes_only_when_moving (dt : float) (p : Player) :
  animationTimer (fst (update dt p)) <> animationTimer p -> isMoving p = true.
Proof.
  intros Hne. destruct (isMoving p) eqn:Hm; [reflexivity|].
  unfold update in Hne. rewrite Hm in Hne. now elim Hne.
Qed.

End PlayerFacts.

(* ================================================================== *)
(** * Properties of tile resolution, autotiles and collision *)
(* ================================================================== *)
Module MapRendererFacts.
Import MapRendererTs.

(** ** The neighbour query *)

Lemma scanLayers_skips (x y : Z) (pre : list Layer) :
  Forall (emptyAt x y) pre ->
  forall rest, scanLayers (pre ++ rest) x y = scanLayers rest x y.
Proof.
  induction 1 as [|l pre Hl _ IH]; intros rest; cbn; [reflexivity|].
  destruct Hl as [Hl|Hl]; rewrite Hl; cbn; apply IH.
Qed.

Lemma scanLayers_found (x y t : Z) (visit : list Layer) :
  t <> 0 ->
  scanLayers visit x y = t ->
  exists pre l post,
    visit = pre ++ l :: post /\ Forall (emptyAt x y) pre /\
    cell l x y = Some t.
Proof.
  intros Ht. induction visit as [|l rest IH]; cbn; intros Hscan.
  - congruence.
  - destruct (cell l x y) as [u|] eqn:Hc.
    + destruct (Z.eqb_spec u 0) as [Hu|Hu].
      * destruct (IH Hscan) as (pre & l' & post & -> & Hpre & Hl').
        exists (l :: pre), l', post. repeat split; auto.
        constructor; [right; now rewrite Hc, Hu|exact Hpre].
      * subst u. exists [], l, rest. repeat split; auto.
    + destruct (IH Hscan) as (pre & l' & post & -> & Hpre & Hl').
      exists (l :: pre), l', post. repeat split; auto.
      constructor; [now left|exact Hpre].
Qed.

Lemma scanLayers_topmost (x y t : Z) (ls : list Layer) :
  t <> 0 ->
  (scanLayers (rev ls) x y = t <-> topmostNonEmpty ls x y t).
Proof.
  intros Ht. split.
  - intros Hscan.
    destruct (scanLayers_found x y t (rev ls) Ht Hscan)
      as (pre & l & post & Hrev & Hpre & Hl).
    exists (rev post), l, (rev pre). repeat split; auto.
    + rewrite <- (rev_involutive ls), Hrev, rev_app_distr. cbn.
      now rewrite <- app_assoc.
    + apply Forall_rev. exact Hpre.
  - intros (below & l & above & -> & Hl & _ & Habove).
    rewrite rev_app_distr. cbn. rewrite <- app_assoc.
    rewrite scanLayers_skips by (apply Forall_rev; exact Habove).
    cbn. rewrite Hl. destruct (Z.eqb_spec t 0); [contradiction|reflexivity].
Qed.

Lemma getTileIdAt_out_of_bounds (mr : MapRenderer) (x y : Z) :
  ~ inBounds mr x y -> getTileIdAt mr x y = -1.
Proof.
  unfold inBounds, getTileIdAt. intros Hout.
  destruct (Z.ltb_spec x 0), (Z.leb_spec (width mr) x),
           (Z.ltb_spec y 0), (Z.leb_spec (height mr) y); cbn;
    try reflexivity.
  exfalso. apply Hout. lia.
Qed.

Lemma getTileIdAt_in_bounds (mr : MapRenderer) (x y : Z) :
  inBounds mr x y -> getTileIdAt mr x y = scanLayers (rev (layers mr)) x y.
Proof.
  unfold inBounds, getTileIdAt. intros Hin.
  destruct (Z.ltb_spec x 0), (Z.leb_spec (width mr) x),
           (Z.ltb_spec y 0), (Z.leb_spec (height mr) y); cbn;
    try reflexivity; lia.
Qed.

Lemma inBounds_dec (mr : MapRenderer) (x y : Z) :
  inBounds mr x y \/ ~ inBounds mr x y.
Proof. unfold inBounds. lia. Qed.

(** A position with no tile in any layer reads as 0. *)
Lemma getTileIdAt_empty (mr : MapRenderer) (x y : Z) :
  inBounds mr x y -> Forall (emptyAt x y) (layers mr) ->
  getTileIdAt mr x y = 0.
Proof.
  intros Hin Hall. rewrite getTileIdAt_in_bounds by exact Hin.
  rewrite <- (app_nil_r (rev (layers mr))).
  now rewrite scanLayers_skips by (apply Forall_rev; exact Hall).
Qed.

Lemma getTileIdAt_positive (mr : MapRenderer) (x y t : Z) :
  0 < t ->
  (getTileIdAt mr x y = t <->
   inBounds mr x y /\ topmostNonEmpty (layers mr) x y t).
Proof.
  intros Ht. destruct (inBounds_dec mr x y) as [Hin|Hout].
  - rewrite getTileIdAt_in_bounds by exact Hin.
    rewrite scanLayers_topmost by lia. tauto.
  - rewrite getTileIdAt_out_of_bounds by exact Hout. split; [lia|tauto].
Qed.

Lemma neighborFlags_offset (mr : MapRenderer) (t x y dx dy : Z)
    (flag : Neighbors -> bool) :
  In (dx, dy, flag) neighborOffsets ->
  flag (neighborFlags mr t x y) = (getTileIdAt mr (x + dx) (y + dy) =? t).
Proof.
  unfold neighborOffsets. cbn.
  intros [H|[H|[H|[H|[H|[H|[H|[H|[]]]]]]]]];
    injection H as <- <- <-; cbn; rewrite ?Z.add_0_r; reflexivity.
Qed.

(** C4, as stated, fails: rendering tile 49 at (0,0), its right neighbour
    holds tile 50 of the same 48-ID slot, yet the flag for (1,0) is false. *)
Lemma same_slot_neighbor_not_matched :
  getTileIdAt twoVariations 1 0 = 50 /\
  autotileSlot 50 = autotileSlot 49 /\
  autotileVariation 50 <> autotileVariation 49 /\
  hasRight (neighborFlags twoVariations 49 0 0) = false.
Proof. repeat split; try reflexivity. discriminate. Qed.

(** C4 (amended). For an autotile [t] rendered at (x,y), the flag of each of
    the eight offsets (dx,dy) is true exactly when (x+dx,y+dy) lies on the
    map and the top-most non-empty tile across the layers there is [t]
    itself: tile identifiers are compared for equality, so a neighbour
    matches only with the same identifier (hence the same slot and the same
    variation). *)
Theorem neighbor_flag_exact_id (mr : MapRenderer) (t x y dx dy : Z)
    (flag : Neighbors -> bool) :
  0 < t ->
  In (dx, dy, flag) neighborOffsets ->
  (flag (neighborFlags mr t x y) = true <->
   inBounds mr (x + dx) (y + dy) /\
   topmostNonEmpty (layers mr) (x + dx) (y + dy) t)
  /\ (flag (neighborFlags mr t x y) = true ->
      autotileSlot (getTileIdAt mr (x + dx) (y + dy)) = autotileSlot t /\
      autotileVariation (getTileIdAt mr (x + dx) (y + dy))
      = autotileVariation t).
Proof.
  intros Ht Hoff. rewrite (neighborFlags_offset mr t x y dx dy flag Hoff).
  rewrite Z.eqb_eq. split.
  - apply getTileIdAt_positive. exact Ht.
  - intros ->. split; reflexivity.
Qed.

Lemma neighbor_flag_exact_id_witness :
  0 < 49 /\ In (1, 0, hasRight) neighborOffsets /\
  hasRight (neighborFlags twoEqual 49 0 0) = true /\
  inBounds twoEqual (0 + 1) (0 + 0) /\
  topmostNonEmpty (layers twoEqual) (0 + 1) (0 + 0) 49.
Proof.
  assert (Hpos : 0 < 49) by reflexivity.
  assert (Hoff : In (1, 0, hasRight) neighborOffsets)
    by (right; left; reflexivity).
  split; [exact Hpos|]. split; [exact Hoff|]. split; [reflexivity|].
  apply (proj1 (neighbor_flag_exact_id twoEqual 49 0 0 1 0 hasRight Hpos Hoff)).
  reflexivity.
Defined.

(** ** The quadrant rule *)

Lemma getMiniTile_table (a1 a2 d : bool) (q : Quadrant) :
  getMiniTile a1 a2 d q = patternTable (spec_classify a1 a2 d) q.
Proof. destruct a1, a2, d, q; reflexivity. Qed.

Lemma quadrantTile_flags (n : Neighbors) (q : Quadrant) :
  quadrantTile n q
  = getMiniTile (flagAt n (cornerX q) 0) (flagAt n 0 (cornerY q))
                (flagAt n (cornerX q) (cornerY q)) q.
Proof. destruct q; reflexivity. Qed.

Lemma flagAt_neighborFlags (mr : MapRenderer) (t x y dx dy : Z) :
  (dx = -1 \/ dx = 0 \/ dx = 1) -> (dy = -1 \/ dy = 0 \/ dy = 1) ->
  (dx, dy) <> (0, 0) ->
  flagAt (neighborFlags mr t x y) dx dy = sameTypeAt mr t x y dx dy.
Proof.
  unfold sameTypeAt.
  intros [->|[->| ->]] [->|[->| ->]] Hne; try congruence; cbn;
    rewrite ?Z.add_0_r; reflexivity.
Qed.

(** C5. The mini-tile of a quadrant is a function of the neighbour flags and
    the quadrant: it is the pattern-sheet entry of the case chosen by the
    precedence inner, inner-cut, outer corner, edge, applied to the flags of
    the neighbour beside the quadrant, the neighbour above or below it and
    the neighbour diagonally across its corner (TL: left, up, up-left; TR:
    right, up, up-right; BL: left, down, down-left; BR: right, down,
    down-right), read from the map at the corresponding offsets.  With no
    neighbour of the same type the four quadrants take the outer-corner
    pair (0,2) and (5,2); with all eight they take the four distinct inner
    entries. *)
Theorem autotile_quadrant_classification :
  (forall n q,
     quadrantTile n q
     = patternTable
         (spec_classify (flagAt n (cornerX q) 0) (flagAt n 0 (cornerY q))
                        (flagAt n (cornerX q) (cornerY q))) q) /\
  (forall n,
     (flagAt n (-1) 0, flagAt n 1 0, flagAt n 0 (-1), flagAt n 0 1)
     = (hasLeft n, hasRight n, hasUp n, hasDown n) /\
     (flagAt n (-1) (-1), flagAt n 1 (-1), flagAt n (-1) 1, flagAt n 1 1)
     = (hasUpLeft n, hasUpRight n, hasDownLeft n, hasDownRight n)) /\
  (forall mr t x y q,
     quadrantTile (neighborFlags mr t x y) q
     = patternTable
         (spec_classify (sameTypeAt mr t x y (cornerX q) 0)
                        (sameTypeAt mr t x y 0 (cornerY q))
                        (sameTypeAt mr t x y (cornerX q) (cornerY q))) q) /\
  (forall a1 a2 d q,
     getMiniTile a1 a2 d q = patternTable (spec_classify a1 a2 d) q) /\
  (forall a1 a2 d,
     spec_classify a1 a2 d =
     if a1 && a2 && d then Inner
     else if a1 && a2 then InnerCut
     else if negb a1 && negb a2 then OuterCorner
     else if a1 then EdgeHorizontal else EdgeVertical) /\
  (forall q, quadrantTile isolated q = patternTable OuterCorner q) /\
  map (quadrantTile isolated) allQuadrants
  = [mkMiniTile 0 2; mkMiniTile 5 2; mkMiniTile 0 2; mkMiniTile 5 2] /\
  (forall q, quadrantTile surrounded q = patternTable Inner q) /\
  map (quadrantTile surrounded) allQuadrants
  = [mkMiniTile 1 3; mkMiniTile 2 3; mkMiniTile 1 4; mkMiniTile 2 4] /\
  NoDup (map (quadrantTile surrounded) allQuadrants).
Proof.
  split.
  { intros n q. rewrite quadrantTile_flags. apply getMiniTile_table. }
  split; [intros n; split; reflexivity|].
  split.
  { intros mr t x y q. rewrite quadrantTile_flags, getMiniTile_table.
    rewrite !flagAt_neighborFlags by (destruct q; cbn; first [lia|congruence]).
    reflexivity. }
  split; [exact getMiniTile_table|].
  split; [intros [] [] []; reflexivity|].
  split; [intros []; reflexivity|].
  split; [reflexivity|].
  split; [intros []; reflexivity|].
  split; [reflexivity|].
  cbn. repeat constructor; cbn; intuition discriminate.
Qed.

(** A tile with the same tile on its left only, and one with the same tile
    above only: the quadrants on that side see an edge, the others an outer
    corner, and the two neighbourhoods are drawn differently. *)
Example quadrants_of_one_sided_neighbourhoods :
  map (quadrantTile onlyLeft) allQuadrants
  = [mkMiniTile 1 2; mkMiniTile 5 2; mkMiniTile 3 2; mkMiniTile 5 2] /\
  map (quadrantTile onlyUp) allQuadrants
  = [mkMiniTile 0 3; mkMiniTile 5 3; mkMiniTile 0 2; mkMiniTile 5 2].
Proof. split; reflexivity. Qed.

(** The quadrants of a rendered tile depend on the map only through the
    eight flags. *)
Lemma quadrantTile_depends_on_flags (mr1 mr2 : MapRenderer)
    (t1 t2 x1 y1 x2 y2 : Z) (q : Quadrant) :
  neighborFlags mr1 t1 x1 y1 = neighborFlags mr2 t2 x2 y2 ->
  quadrantTile (neighborFlags mr1 t1 x1 y1) q
  = quadrantTile (neighborFlags mr2 t2 x2 y2) q.
Proof. now intros ->. Qed.

(** ** Tile resolution *)

Lemma js_sub_exact (a b : Z) :
  Z.abs (a - b) <= EXACT_LIMIT -> js_sub a b = a - b.
Proof.
  intros Hb. unfold js_sub, js_round.
  destruct (Z.leb_spec (Z.abs (a - b)) EXACT_LIMIT); [reflexivity|lia].
Qed.

(** C6, as stated, fails: tile 2^61 is resolved from the rounded difference
    2^61 - 512, so its row is 2^58 - 64 and not floor((2^61 - 384)/8), which
    is 2^58 - 48. *)
Lemma huge_tile_row_is_rounded :
  getTileCoords emptyMap 2305843009213693952 None None
  = Some (plainCoords (0 * 32) (288230376151711680 * 32)) /\
  (2305843009213693952 - 384) / 8 = 288230376151711696 /\
  getTileCoords emptyMap 2305843009213693952 None None
  <> Some (plainCoords (((2305843009213693952 - 384) mod 8) * 32)
                       (((2305843009213693952 - 384) / 8) * 32)).
Proof.
  split; [reflexivity|]. split; [reflexivity|].
  vm_compute. discriminate.
Qed.

(** C6 (amended). Tile 0 resolves to nothing; a tile between 1 and 383
    resolves to whatever the autotile path returns; a tile from 384 up to
    2^53 resolves to the tileset offset of column (t-384) mod 8 and row
    floor((t-384)/8), each times the 32-pixel tile size. *)
Theorem getTileCoords_resolution (mr : MapRenderer) (t : Z) (x y : option Z) :
  tilesetColumns mr = 8 ->
  tileSize mr = TILE_SIZE ->
  (t = 0 -> getTileCoords mr t x y = None) /\
  (0 < t < 384 -> getTileCoords mr t x y = getAutotileCoords mr t x y) /\
  (384 <= t <= EXACT_LIMIT ->
   getTileCoords mr t x y
   = Some (plainCoords (((t - 384) mod 8) * 32) (((t - 384) / 8) * 32))).
Proof.
  intros Hcols Hsize. unfold getTileCoords. repeat split.
  - intros ->. reflexivity.
  - intros Ht. destruct (Z.eqb_spec t 0); [lia|].
    destruct (Z.ltb_spec t 384); [reflexivity|lia].
  - intros Ht. destruct (Z.eqb_spec t 0); [lia|].
    destruct (Z.ltb_spec t 384); [lia|].
    rewrite js_sub_exact by (unfold EXACT_LIMIT in *; lia).
    rewrite Hcols, Hsize. unfold js_mod, js_floor_div, TILE_SIZE.
    rewrite Z.rem_mod_nonneg by lia. reflexivity.
Qed.

Lemma getTileCoords_resolution_witness :
  tilesetColumns emptyMap = 8 /\ tileSize emptyMap = TILE_SIZE /\
  getTileCoords emptyMap 397 None None = Some (plainCoords 160 32).
Proof.
  split; [reflexivity|]. split; [reflexivity|].
  apply (getTileCoords_resolution emptyMap 397 None None eq_refl eq_refl).
  split; discriminate.
Defined.

(** The autotile path always yields a descriptor. *)
Lemma getAutotileCoords_some (mr : MapRenderer) (t : Z) (x y : option Z) :
  getAutotileCoords mr t x y <> None.
Proof.
  unfold getAutotileCoords.
  destruct (js_index (autotiles mr) (autotileSlot t)) as [[img|]|];
    try discriminate.
  destruct ((imageWidth img =? 128) && (imageHeight img =? 32));
    [discriminate|].
  destruct ((imageWidth img =? 96) && (imageHeight img =? 128)); discriminate.
Qed.

(** ** The collision table *)

(** C7 (the code departs from it). No tile below 384 is ever blocking: the
    deep-water test 2048..2200 sits behind the guard [tileId < 384] and can
    never succeed. *)
Theorem isBlockingTile_below_384_never_blocks (t : Z) :
  t < 384 -> isBlockingTile t = false.
Proof.
  intros Ht. unfold isBlockingTile.
  destruct (Z.eqb_spec t 0); [reflexivity|].
  destruct (Z.ltb_spec t 384); [|lia].
  destruct (Z.leb_spec 2048 t); [lia|reflexivity].
Qed.

Lemma isBlockingTile_below_384_never_blocks_witness :
  200 < 384 /\ isBlockingTile 200 = false.
Proof.
  split; [reflexivity|].
  apply (isBlockingTile_below_384_never_blocks 200). reflexivity.
Defined.

(** From 384 on, a tile blocks exactly when one of the listed inclusive
    ranges contains it. *)
Lemma isBlockingTile_static (t : Z) :
  384 <= t ->
  (isBlockingTile t = true <->
   exists r, In r blockingRanges /\ fst r <= t <= snd r).
Proof.
  intros Ht. unfold isBlockingTile.
  destruct (Z.eqb_spec t 0); [lia|].
  destruct (Z.ltb_spec t 384); [lia|].
  rewrite existsb_exists. unfold inRange.
  split; intros (r & Hin & Hr); exists r; split; auto; lia.
Qed.

(** The ranges are listed in increasing order and do not overlap. *)
Lemma blockingRanges_disjoint :
  ForallOrdPairs (fun r1 r2 => snd r1 < fst r2) blockingRanges /\
  Forall (fun r => 384 <= fst r <= snd r) blockingRanges.
Proof.
  unfold blockingRanges. split.
  - repeat (constructor; [repeat (constructor; [reflexivity|]); constructor|]).
    constructor.
  - repeat (constructor; [cbn; lia|]). constructor.
Qed.

End MapRendererFacts.

(* ================================================================== *)
(** * Properties of the server registry and its broadcasts *)
(* ================================================================== *)
Module ServerFacts.
Import ServerTs.

(** ** The registry as a map *)

Lemma map_get_set_same (ws : WebSocket) (p : Player) (players : PlayerMap) :
  map_get ws (map_set ws p players) = Some p.
Proof.
  induction players as [|[k v] rest IH]; cbn.
  - now rewrite Nat.eqb_refl.
  - destruct (Nat.eqb k ws) eqn:Hk; cbn; rewrite Hk; [reflexivity|exact IH].
Qed.

Lemma map_get_set_other (ws c : WebSocket) (p : Player) (players : PlayerMap) :
  c <> ws -> map_get c (map_set ws p players) = map_get c players.
Proof.
  intros Hc. induction players as [|[k v] rest IH]; cbn.
  - destruct (Nat.eqb_spec ws c); [congruence|reflexivity].
  - destruct (Nat.eqb_spec k ws) as [->|Hk]; cbn.
    + destruct (Nat.eqb_spec ws c); [congruence|reflexivity].
    + destruct (Nat.eqb_spec k c); [reflexivity|exact IH].
Qed.

Lemma map_get_none_keys (ws : WebSocket) (players : PlayerMap) :
  map_get ws players = None <-> ~ In ws (map fst players).
Proof.
  induction players as [|[k v] rest IH]; cbn.
  - tauto.
  - destruct (Nat.eqb_spec k ws) as [->|Hk].
    + split; [discriminate|]. intros H. exfalso. apply H. now left.
    + rewrite IH. tauto.
Qed.

Lemma map_set_fresh (ws : WebSocket) (p : Player) (players : PlayerMap) :
  map_get ws players = None -> map_set ws p players = players ++ [(ws, p)].
Proof.
  induction players as [|[k v] rest IH]; cbn; [reflexivity|].
  destruct (Nat.eqb k ws); [discriminate|].
  intros H. now rewrite IH.
Qed.

Lemma map_set_keys (ws : WebSocket) (p : Player) (players : PlayerMap) :
  map_get ws players <> None ->
  map fst (map_set ws p players) = map fst players.
Proof.
  induction players as [|[k v] rest IH]; cbn; [congruence|].
  destruct (Nat.eqb_spec k ws) as [->|Hk]; cbn; [reflexivity|].
  intros H. now rewrite IH.
Qed.

Lemma uniqueKeys_set (ws : WebSocket) (p : Player) (players : PlayerMap) :
  uniqueKeys players -> uniqueKeys (map_set ws p players).
Proof.
  unfold uniqueKeys. intros Hu.
  destruct (map_get ws players) as [q|] eqn:Hget.
  - rewrite map_set_keys by congruence. exact Hu.
  - rewrite map_set_fresh by exact Hget. rewrite map_app. cbn.
    apply NoDup_app; [exact Hu|repeat constructor; intros []|].
    intros a Ha [<-|[]]. now apply map_get_none_keys in Hget.
Qed.

Lemma map_delete_keys_incl (ws c : WebSocket) (players : PlayerMap) :
  In c (map fst (map_delete ws players)) -> In c (map fst players).
Proof.
  induction players as [|[k v] rest IH]; cbn; [tauto|].
  destruct (Nat.eqb k ws); cbn; tauto.
Qed.

Lemma uniqueKeys_delete (ws : WebSocket) (players : PlayerMap) :
  uniqueKeys players -> uniqueKeys (map_delete ws players).
Proof.
  unfold uniqueKeys.
  induction players as [|[k v] rest IH]; cbn; intros Hu; [exact Hu|].
  inversion Hu as [|? ? Hk Hrest]; subst.
  destruct (Nat.eqb k ws); cbn; [exact Hrest|].
  constructor; [|now apply IH].
  intros Hin. apply Hk. now apply map_delete_keys_incl in Hin.
Qed.

(** ** Map-scoped broadcast *)

Section Broadcast.
Variable readyState : WebSocket -> ReadyState.

Lemma broadcastToMap_recipients (m : Z) (msg : ServerMessage)
    (ex : option WebSocket) (players : PlayerMap) :
  broadcastToMap readyState m msg ex players
  = map (fun c => (c, msg)) (recipients readyState m ex players).
Proof.
  unfold recipients. induction players as [|[k v] rest IH]; cbn;
    [reflexivity|].
  destruct ((mapId v =? m) && isOpen (readyState k) && notExcluded k ex);
    cbn; now rewrite IH.
Qed.

Lemma notExcluded_self (ws : WebSocket) : notExcluded ws (Some ws) = false.
Proof. cbn. now rewrite Nat.eqb_refl. Qed.

(** Rewriting the record of the excluded socket does not change who is
    reached. *)
Lemma recipients_set_excluded (m : Z) (ws : WebSocket) (p : Player)
    (players : PlayerMap) :
  recipients readyState m (Some ws) (map_set ws p players)
  = recipients readyState m (Some ws) players.
Proof.
  unfold recipients, notExcluded.
  induction players as [|[k v] rest IH]; cbn [map_set filter fst snd].
  - rewrite Nat.eqb_refl. cbn [negb]. rewrite andb_false_r. reflexivity.
  - destruct (Nat.eqb k ws) eqn:Hk; cbn [filter fst snd]; rewrite Hk;
      cbn [negb]; rewrite ?andb_false_r, ?andb_true_r.
    + reflexivity.
    + destruct ((mapId v =? m) && isOpen (readyState k)); cbn [map fst];
        now rewrite IH.
Qed.

Lemma playersOnNewMap_set (m : Z) (ws : WebSocket) (p : Player)
    (players : PlayerMap) :
  playersOnNewMap m ws (map_set ws p players) = playersOnNewMap m ws players.
Proof.
  unfold playersOnNewMap.
  induction players as [|[k v] rest IH]; cbn [map_set filter fst snd].
  - rewrite Nat.eqb_refl. cbn [negb]. rewrite andb_false_r. reflexivity.
  - destruct (Nat.eqb k ws) eqn:Hk; cbn [filter fst snd]; rewrite Hk;
      cbn [negb]; rewrite ?andb_false_r, ?andb_true_r.
    + reflexivity.
    + destruct (mapId v =? m); cbn [map snd]; now rewrite IH.
Qed.

Lemma recipients_keys (m : Z) (ex : option WebSocket) (players : PlayerMap)
    (c : WebSocket) :
  In c (recipients readyState m ex players) -> In c (map fst players).
Proof.
  unfold recipients. rewrite !in_map_iff.
  intros (e & <- & He). apply filter_In in He. exists e. tauto.
Qed.

Lemma recipients_spec (m : Z) (ex : option WebSocket) (players : PlayerMap)
    (c : WebSocket) :
  uniqueKeys players ->
  (In c (recipients readyState m ex players) <->
   onMap players m c = true /\ isOpen (readyState c) = true /\
   notExcluded c ex = true).
Proof.
  unfold uniqueKeys, onMap.
  induction players as [|[k v] rest IH]; intros Hu.
  - cbn. split; [tauto|]. intros [H _]. discriminate.
  - inversion Hu as [|? ? Hk Hrest]; subst.
    change (recipients readyState m ex ((k, v) :: rest))
      with (map fst (filter (fun e => (mapId (snd e) =? m)
                                      && isOpen (readyState (fst e))
                                      && notExcluded (fst e) ex)
                            ((k, v) :: rest))).
    cbn [filter fst snd map_get].
    destruct (Nat.eqb_spec k c) as [->|Hkc].
    + destruct ((mapId v =? m) && isOpen (readyState c) && notExcluded c ex)
        eqn:Hcond.
      * apply andb_prop in Hcond as [Hcond H3].
        apply andb_prop in Hcond as [H1 H2].
        cbn. split; [tauto|]. intros _. now left.
      * split.
        -- intros Hin. exfalso. apply Hk.
           apply (recipients_keys m ex rest c). exact Hin.
        -- intros (H1 & H2 & H3). rewrite H1, H2, H3 in Hcond. discriminate.
    + specialize (IH Hrest).
      destruct ((mapId v =? m) && isOpen (readyState k) && notExcluded k ex).
      * cbn [map fst In]. rewrite <- IH. unfold recipients.
        split; [intros [H|H]; [congruence|exact H]|intros H; now right].
      * exact IH.
Qed.

Lemma recipients_NoDup (m : Z) (ex : option WebSocket) (players : PlayerMap) :
  uniqueKeys players -> NoDup (recipients readyState m ex players).
Proof.
  unfold uniqueKeys.
  induction players as [|[k v] rest IH]; intros Hu; [constructor|].
  inversion Hu as [|? ? Hk Hrest]; subst.
  unfold recipients. cbn [filter fst snd].
  destruct ((mapId v =? m) && isOpen (readyState k) && notExcluded k ex).
  - cbn. constructor; [|now apply IH].
    intros Hin. apply Hk. apply (recipients_keys m ex rest k). exact Hin.
  - now apply IH.
Qed.

Lemma sentTo_app (c : WebSocket) (a b : list Sent) :
  sentTo c (a ++ b) = sentTo c a ++ sentTo c b.
Proof. unfold sentTo. now rewrite filter_app, map_app. Qed.

Lemma sentTo_map_not_in (c : WebSocket) (msg : ServerMessage)
    (l : list WebSocket) :
  ~ In c l -> sentTo c (map (fun k => (k, msg)) l) = [].
Proof.
  unfold sentTo. induction l as [|k l IH]; cbn; [reflexivity|].
  intros Hn. destruct (Nat.eqb_spec k c) as [->|Hk]; [tauto|].
  apply IH. tauto.
Qed.

Lemma sentTo_map_NoDup (c : WebSocket) (msg : ServerMessage)
    (l : list WebSocket) :
  NoDup l -> In c l -> sentTo c (map (fun k => (k, msg)) l) = [msg].
Proof.
  induction 1 as [|k l Hk Hnd IH]; cbn; [tauto|].
  unfold sentTo in *. cbn.
  destruct (Nat.eqb_spec k c) as [->|Hkc]; cbn.
  - intros _. f_equal. now apply (sentTo_map_not_in c msg l).
  - intros [H|H]; [congruence|]. now apply IH.
Qed.

(** What one socket receives from a map-scoped broadcast. *)
Lemma sentTo_broadcastToMap (m : Z) (msg : ServerMessage)
    (ex : option WebSocket) (players : PlayerMap) (c : WebSocket) :
  uniqueKeys players ->
  sentTo c (broadcastToMap readyState m msg ex players)
  = if onMap players m c && isOpen (readyState c) && notExcluded c ex
    then [msg] else [].
Proof.
  intros Hu. rewrite broadcastToMap_recipients.
  pose proof (recipients_spec m ex players c Hu) as Hspec.
  destruct (onMap players m c && isOpen (readyState c) && notExcluded c ex)
    eqn:Hcond.
  - apply sentTo_map_NoDup; [now apply recipients_NoDup|].
    apply Hspec.
    apply andb_prop in Hcond as [Hcond H3].
    apply andb_prop in Hcond as [H1 H2]. tauto.
  - apply sentTo_map_not_in. rewrite Hspec. intros (H1 & H2 & H3).
    rewrite H1, H2, H3 in Hcond. discriminate.
Qed.

Lemma sentTo_self_excluded (m : Z) (msg : ServerMessage) (ws : WebSocket)
    (players : PlayerMap) :
  sentTo ws (broadcastToMap readyState m msg (Some ws) players) = [].
Proof.
  unfold sentTo. induction players as [|[k v] rest IH]; cbn; [reflexivity|].
  destruct (Nat.eqb_spec k ws) as [->|Hk]; cbn.
  - rewrite !andb_false_r. exact IH.
  - destruct ((mapId v =? m) && isOpen (readyState k)); cbn; [|exact IH].
    destruct (Nat.eqb_spec k ws); [congruence|exact IH].
Qed.

End Broadcast.

Lemma playersOnNewMap_spec (m : Z) (ws : WebSocket) (players : PlayerMap)
    (q : Player) :
  In q (playersOnNewMap m ws players) <->
  exists c, c <> ws /\ In (c, q) players /\ mapId q = m.
Proof.
  unfold playersOnNewMap. rewrite in_map_iff. split.
  - intros ([c q'] & Hq & Hin). cbn in Hq. subst q'.
    apply filter_In in Hin as [Hin Hcond]. cbn in Hcond.
    apply andb_prop in Hcond as [Hm Hne].
    exists c. repeat split; [|exact Hin|now apply Z.eqb_eq].
    intros ->. rewrite Nat.eqb_refl in Hne. discriminate.
  - intros (c & Hne & Hin & Hm). exists (c, q). split; [reflexivity|].
    apply filter_In. split; [exact Hin|]. cbn.
    apply andb_true_intro. split; [now apply Z.eqb_eq|].
    destruct (Nat.eqb_spec c ws); [contradiction|reflexivity].
Qed.

Lemma recordsOnMap_app (m : Z) (a b : PlayerMap) :
  recordsOnMap m (a ++ b) = recordsOnMap m a ++ recordsOnMap m b.
Proof. unfold recordsOnMap, map_values. now rewrite map_app, filter_app. Qed.

(** In a trace made of departures followed by arrivals, every departure
    comes before every arrival. *)
Lemma leaves_before_joins (leaves joins : list Sent) :
  Forall (fun s => isJoin (snd s) = false) leaves ->
  Forall (fun s => isLeave (snd s) = false) joins ->
  forall i j s1 s2,
    nth_error (leaves ++ joins) i = Some s1 -> isLeave (snd s1) = true ->
    nth_error (leaves ++ joins) j = Some s2 -> isJoin (snd s2) = true ->
    (i < j)%nat.
Proof.
  intros Hl Hj i j s1 s2 Hi Hs1 Hj' Hs2.
  rewrite Forall_forall in Hl, Hj.
  assert (Hi' : (i < List.length leaves)%nat).
  { destruct (Nat.lt_ge_cases i (List.length leaves)) as [H|H]; [exact H|].
    rewrite nth_error_app2 in Hi by exact H.
    apply nth_error_In in Hi. apply Hj in Hi. congruence. }
  assert (Hj'' : (List.length leaves <= j)%nat).
  { destruct (Nat.lt_ge_cases j (List.length leaves)) as [H|H]; [|exact H].
    rewrite nth_error_app1 in Hj' by exact H.
    apply nth_error_In in Hj'. apply Hl in Hj'. congruence. }
  lia.
Qed.

(** ** The registry across handlers *)

(** Every handler keeps the keys of the registry distinct. *)
Lemma onConnection_uniqueKeys (rs : WebSocket -> ReadyState) (ws : WebSocket)
    (pid : string) (sprite : Z) (players : PlayerMap) :
  uniqueKeys players ->
  uniqueKeys (fst (onConnection rs ws pid sprite players)).
Proof. intros Hu. cbn. now apply uniqueKeys_set. Qed.

Lemma onMessage_uniqueKeys (rs : WebSocket -> ReadyState) (ws : WebSocket)
    (pid : string) (data : ClientMessage) (players : PlayerMap) :
  uniqueKeys players ->
  uniqueKeys (fst (onMessage rs ws pid data players)).
Proof.
  intros Hu. unfold onMessage.
  destruct data; try exact Hu;
    destruct (map_get ws players); try exact Hu; cbn;
    now apply uniqueKeys_set.
Qed.

Lemma onClose_uniqueKeys (rs : WebSocket -> ReadyState) (ws : WebSocket)
    (pid : string) (players : PlayerMap) :
  uniqueKeys players ->
  uniqueKeys (fst (onClose rs ws pid players)).
Proof.
  intros Hu. unfold onClose.
  destruct (map_get ws players); cbn; now apply uniqueKeys_delete.
Qed.

(** A connection registers a record under the identifier its handlers
    close over, and no message changes the identifier of a record. *)
Lemma onConnection_registers (rs : WebSocket -> ReadyState) (ws : WebSocket)
    (pid : string) (sprite : Z) (players : PlayerMap) :
  map_get ws (fst (onConnection rs ws pid sprite players))
  = Some (spawnPlayer pid sprite)
  /\ id (spawnPlayer pid sprite) = pid.
Proof. split; [apply map_get_set_same|reflexivity]. Qed.

Lemma onMessage_keeps_id (rs : WebSocket -> ReadyState) (ws c : WebSocket)
    (pid : string) (data : ClientMessage) (players : PlayerMap) (q : Player) :
  map_get c players = Some q ->
  exists q', map_get c (fst (onMessage rs ws pid data players)) = Some q'
             /\ id q' = id q.
Proof.
  intros Hq. unfold onMessage.
  destruct data as [nx ny d mv om|F T nx ny|]; try (exists q; now split);
    destruct (map_get ws players) as [p|] eqn:Hp;
    try (exists q; now split); cbn [fst];
    (destruct (Nat.eqb_spec c ws) as [->|Hc];
     [ rewrite map_get_set_same; eexists; split; [reflexivity|];
       cbn; congruence
     | rewrite map_get_set_other by exact Hc; exists q; now split ]).
Qed.

(** ** New connections *)

(** The first socket to connect is sent a snapshot holding its own record. *)
Example first_connection_scenario :
  onConnection allOpen sockA "A" 0 []
  = ([(sockA, spawnPlayer "A" 0)],
     [(sockA, INIT "A" [spawnPlayer "A" 0])]).
Proof. reflexivity. Qed.

(** The second socket is sent both records, and the first is told of the
    arrival. *)
Example second_connection_scenario :
  snd (onConnection allOpen sockB "B" 1 [(sockA, spawnPlayer "A" 0)])
  = [(sockB, INIT "B" [spawnPlayer "A" 0; spawnPlayer "B" 1]);
     (sockA, PLAYER_JOIN (spawnPlayer "B" 1))].
Proof. reflexivity. Qed.

(** C1, as stated, fails: the first connection on the spawn map is sent an
    INIT whose players array holds one entry, its own record, not zero. *)
Lemma first_connection_init_not_empty :
  sentTo sockA (snd (onConnection allOpen sockA "A" 0 []))
  = [INIT "A" [spawnPlayer "A" 0]] /\
  sentTo sockA (snd (onConnection allOpen sockA "A" 0 [])) <> [INIT "A" []].
Proof. split; [reflexivity|discriminate]. Qed.

(** C1 (amended). A new connection is sent exactly one message, an INIT
    carrying its identifier and the records that are on the spawn map once
    its own record has been registered: the records already on map 79, in
    registry order, followed by its own.  The array is therefore one entry
    longer than the number of players found on the map: one entry for the
    first connection on the map, two for the second. *)
Theorem connection_init_snapshot (rs : WebSocket -> ReadyState)
    (ws : WebSocket) (pid : string) (sprite : Z) (players : PlayerMap) :
  map_get ws players = None ->
  sentTo ws (snd (onConnection rs ws pid sprite players))
  = [INIT pid (recordsOnMap 79 (fst (onConnection rs ws pid sprite players)))]
  /\ recordsOnMap 79 (fst (onConnection rs ws pid sprite players))
     = recordsOnMap 79 players ++ [spawnPlayer pid sprite]
  /\ List.length
       (recordsOnMap 79 (fst (onConnection rs ws pid sprite players)))
     = S (List.length (recordsOnMap 79 players)).
Proof.
  intros Hfresh. unfold onConnection. cbn [fst snd].
  assert (Hrec : recordsOnMap 79 (map_set ws (spawnPlayer pid sprite) players)
                 = recordsOnMap 79 players ++ [spawnPlayer pid sprite]).
  { rewrite map_set_fresh by exact Hfresh. now rewrite recordsOnMap_app. }
  repeat split.
  - change (sentTo ws
              ((ws, INIT pid
                      (recordsOnMap 79
                         (map_set ws (spawnPlayer pid sprite) players)))
               :: broadcastToMap rs 79
                    (PLAYER_JOIN (copyPlayer (spawnPlayer pid sprite)))
                    (Some ws) (map_set ws (spawnPlayer pid sprite) players))
            = [INIT pid
                 (recordsOnMap 79
                    (map_set ws (spawnPlayer pid sprite) players))]).
    unfold sentTo at 1. cbn [filter fst snd]. rewrite Nat.eqb_refl.
    cbn [map snd]. f_equal.
    apply (sentTo_self_excluded rs).
  - exact Hrec.
  - rewrite Hrec, length_app. cbn. lia.
Qed.

Lemma connection_init_snapshot_witness :
  map_get sockB [(sockA, spawnPlayer "A" 0)] = None /\
  sentTo sockB
    (snd (onConnection allOpen sockB "B" 1 [(sockA, spawnPlayer "A" 0)]))
  = [INIT "B" [spawnPlayer "A" 0; spawnPlayer "B" 1]].
Proof.
  split; [reflexivity|].
  exact (proj1 (connection_init_snapshot allOpen sockB "B" 1
                  [(sockA, spawnPlayer "A" 0)] eq_refl)).
Defined.

(** ** MOVE *)

(** Scenario A: A moves on map 79 while B is on map 79 and C on map 5. *)
Example move_scenario :
  snd (onMessage allOpen sockA "A" (MOVE 5 5 Down true (Some 79)) lobby)
  = [(sockB, PLAYER_MOVE "A" 5 5 Down true 79)].
Proof. reflexivity. Qed.

(** C3. A MOVE from socket [ws] rewrites its record (position, direction,
    motion flag, and the map when the message names one) and leaves the
    other records alone; any socket [c] is then sent a single PLAYER_MOVE
    with the sender's identifier when [c] is not the sender, is open and has
    a record on the sender's map, and is sent nothing otherwise. *)
Theorem move_broadcast (rs : WebSocket -> ReadyState) (ws : WebSocket)
    (pid : string) (nx ny : Z) (d : Direction) (mv : bool) (om : option Z)
    (players : PlayerMap) (p : Player) :
  uniqueKeys players ->
  map_get ws players = Some p ->
  let p' := movedPlayer p nx ny d mv om in
  let r := onMessage rs ws pid (MOVE nx ny d mv om) players in
  map_get ws (fst r) = Some p' /\
  (x p', y p', direction p', isMoving p') = (nx, ny, d, mv) /\
  mapId p' = match om with Some k => k | None => mapId p end /\
  (forall c, c <> ws -> map_get c (fst r) = map_get c players) /\
  (forall c,
     sentTo c (snd r)
     = if negb (Nat.eqb c ws) && onMap (fst r) (mapId p') c && isOpen (rs c)
       then [PLAYER_MOVE pid nx ny d mv (mapId p')]
       else []).
Proof.
  intros Hu Hget p' r. subst r. unfold onMessage. rewrite Hget.
  fold p'. cbn [fst snd]. repeat split.
  - apply map_get_set_same.
  - intros c Hc. now apply map_get_set_other.
  - intros c.
    rewrite (sentTo_broadcastToMap rs) by (now apply uniqueKeys_set).
    unfold notExcluded.
    destruct (negb (Nat.eqb c ws)),
             (onMap (map_set ws p' players) (mapId p') c),
             (isOpen (rs c)); reflexivity.
Qed.

Lemma lobby_uniqueKeys : uniqueKeys lobby.
Proof.
  unfold uniqueKeys. cbn.
  repeat (constructor; [cbn; intuition discriminate|]). constructor.
Defined.

Lemma move_broadcast_witness :
  uniqueKeys lobby /\
  map_get sockA lobby = Some (spawnPlayer "A" 0) /\
  sentTo sockB
    (snd (onMessage allOpen sockA "A" (MOVE 5 5 Down true (Some 79)) lobby))
  = [PLAYER_MOVE "A" 5 5 Down true 79] /\
  sentTo sockC
    (snd (onMessage allOpen sockA "A" (MOVE 5 5 Down true (Some 79)) lobby))
  = [].
Proof.
  split; [exact lobby_uniqueKeys|]. split; [reflexivity|].
  pose proof (move_broadcast allOpen sockA "A" 5 5 Down true (Some 79)
                lobby (spawnPlayer "A" 0) lobby_uniqueKeys eq_refl) as H.
  cbv zeta in H. destruct H as (_ & _ & _ & _ & H).
  split; [exact (H sockB)|exact (H sockC)].
Defined.

(** ** MAP_TRANSITION *)

(** Scenario C: B walks from map 79 to map 5, where C already is. *)
Example transition_scenario :
  snd (onMessage allOpen sockB "B" (MAP_TRANSITION 79 5 10 18) lobby)
  = [ (sockA, PLAYER_LEAVE "B");
      (sockC, PLAYER_JOIN (transitionedPlayer (spawnPlayer "B" 1) 5 10 18));
      (sockB, PLAYER_JOIN (transitionedPlayer (spawnPlayer "C" 2) 5 10 18)) ].
Proof. reflexivity. Qed.

(** C2. A MAP_TRANSITION from map [F] to map [T] sent by socket [ws] of
    player [pid] produces, in this order: a PLAYER_LEAVE for [pid] to each
    other open socket whose record is on [F]; the rewriting of the sender's
    record to the new position and map [T]; a PLAYER_JOIN with that record
    to each other open socket whose record is on [T]; and, to the sender
    alone, one PLAYER_JOIN per other record on [T].  No arrival is sent
    before a departure. *)
Theorem map_transition_handshake (rs : WebSocket -> ReadyState)
    (ws : WebSocket) (pid : string) (F T nx ny : Z)
    (players : PlayerMap) (p : Player) :
  uniqueKeys players ->
  map_get ws players = Some p ->
  id p = pid ->
  let p' := transitionedPlayer p T nx ny in
  let r := onMessage rs ws pid (MAP_TRANSITION F T nx ny) players in
  snd r
  = map (fun c => (c, PLAYER_LEAVE pid)) (recipients rs F (Some ws) players)
    ++ map (fun c => (c, PLAYER_JOIN p')) (recipients rs T (Some ws) players)
    ++ map (fun q => (ws, PLAYER_JOIN q)) (playersOnNewMap T ws players) /\
  fst r = map_set ws p' players /\
  map_get ws (fst r) = Some p' /\
  (id p', x p', y p', mapId p') = (pid, nx, ny, T) /\
  (forall m c,
     In c (recipients rs m (Some ws) players) <->
     c <> ws /\ onMap players m c = true /\ isOpen (rs c) = true) /\
  (forall m, NoDup (recipients rs m (Some ws) players)) /\
  (forall q,
     In q (playersOnNewMap T ws players) <->
     exists c, c <> ws /\ In (c, q) players /\ mapId q = T) /\
  (forall i j s1 s2,
     nth_error (snd r) i = Some s1 -> isLeave (snd s1) = true ->
     nth_error (snd r) j = Some s2 -> isJoin (snd s2) = true ->
     (i < j)%nat).
Proof.
  intros Hu Hget Hid p' r.
  assert (Hout : snd r
    = map (fun c => (c, PLAYER_LEAVE pid)) (recipients rs F (Some ws) players)
      ++ map (fun c => (c, PLAYER_JOIN p')) (recipients rs T (Some ws) players)
      ++ map (fun q => (ws, PLAYER_JOIN q)) (playersOnNewMap T ws players)).
  { subst r. unfold onMessage. rewrite Hget. fold p'. cbn [snd].
    rewrite !broadcastToMap_recipients, recipients_set_excluded,
            playersOnNewMap_set.
    reflexivity. }
  split; [exact Hout|].
  split; [subst r; unfold onMessage; now rewrite Hget|].
  split; [subst r; unfold onMessage; rewrite Hget; apply map_get_set_same|].
  split; [cbn; now rewrite Hid|].
  split.
  { intros m c. rewrite (recipients_spec rs m (Some ws) players c Hu).
    cbn [notExcluded].
    destruct (Nat.eqb_spec c ws); cbn; intuition congruence. }
  split; [intros m; now apply recipients_NoDup|].
  split; [intros q; apply playersOnNewMap_spec|].
  rewrite Hout. apply leaves_before_joins.
  - apply Forall_forall. intros s Hs. apply in_map_iff in Hs as (c & <- & _).
    reflexivity.
  - apply Forall_forall. intros s Hs.
    apply in_app_or in Hs as [Hs|Hs];
      apply in_map_iff in Hs as (c & <- & _); reflexivity.
Qed.

Lemma map_transition_handshake_witness :
  uniqueKeys lobby /\
  map_get sockB lobby = Some (spawnPlayer "B" 1) /\
  id (spawnPlayer "B" 1) = "B"%string /\
  snd (onMessage allOpen sockB "B" (MAP_TRANSITION 79 5 10 18) lobby)
  = map (fun c => (c, PLAYER_LEAVE "B"))
        (recipients allOpen 79 (Some sockB) lobby)
    ++ map (fun c => (c, PLAYER_JOIN
                           (transitionedPlayer (spawnPlayer "B" 1) 5 10 18)))
           (recipients allOpen 5 (Some sockB) lobby)
    ++ map (fun q => (sockB, PLAYER_JOIN q)) (playersOnNewMap 5 sockB lobby).
Proof.
  split; [exact lobby_uniqueKeys|]. split; [reflexivity|].
  split; [reflexivity|].
  exact (proj1 (map_transition_handshake allOpen sockB "B" 79 5 10 18 lobby
                  (spawnPlayer "B" 1) lobby_uniqueKeys eq_refl eq_refl)).
Defined.

End ServerFacts.

(* ================================================================== *)
(** * Properties of collision, grass and tile lookup *)
(* ================================================================== *)
Module CollisionFacts.
Import MapRendererTs.

Lemma bounds_guard (mr : MapRenderer) (x y : Z) :
  (x <? 0) || (width mr <=? x) || (y <? 0) || (height mr <=? y) = false
  <-> inBounds mr x y.
Proof.
  unfold inBounds.
  destruct (Z.ltb_spec x 0), (Z.leb_spec (width mr) x),
           (Z.ltb_spec y 0), (Z.leb_spec (height mr) y); cbn;
    split; intros Hg; try discriminate; try reflexivity; lia.
Qed.

Lemma noBlockingLayer_spec (x y : Z) (ls : list Layer) :
  noBlockingLayer ls x y = true <-> Forall (clearAt x y) ls.
Proof.
  induction ls as [|l rest IH]; cbn.
  - split; [constructor|reflexivity].
  - destruct (tileAt l x y) as [t|] eqn:Ht.
    + destruct (isBlockingTile t) eqn:Hb.
      * split; [discriminate|]. intros Hall.
        inversion Hall as [|? ? Hl _]; subst.
        unfold clearAt in Hl. specialize (Hl t Ht). congruence.
      * rewrite IH. split.
        -- intros Hrest. constructor; [|exact Hrest].
           intros u Hu. unfold clearAt in *. congruence.
        -- intros Hall. now inversion Hall.
    + rewrite IH. split.
      * intros Hrest. constructor; [|exact Hrest].
        intros u Hu. congruence.
      * intros Hall. now inversion Hall.
Qed.

Lemma isWalkable_spec (mr : MapRenderer) (x y : Z) :
  isWalkable mr x y = true <->
  inBounds mr x y /\ Forall (clearAt x y) (layers mr).
Proof.
  unfold isWalkable.
  destruct ((x <? 0) || (width mr <=? x) || (y <? 0) || (height mr <=? y))
    eqn:Hg.
  - split; [discriminate|]. intros [Hin _].
    apply bounds_guard in Hin. congruence.
  - apply bounds_guard in Hg. rewrite noBlockingLayer_spec. tauto.
Qed.

(** X1. A tile is walkable exactly when it lies on the map and no layer carries
    a blocking tile there; in particular every position off the map is
    not walkable, whatever the map's size. *)
Theorem isWalkable_iff (mr : MapRenderer) (x y : Z) :
  isWalkable mr x y = true <->
  inBounds mr x y /\ Forall (clearAt x y) (layers mr).
Proof.
  unfold isWalkable.
  destruct ((x <? 0) || (width mr <=? x) || (y <? 0) || (height mr <=? y))
    eqn:Hg.
  - split; [discriminate|]. intros [Hin _].
    apply bounds_guard in Hin. congruence.
  - apply bounds_guard in Hg. rewrite noBlockingLayer_spec. tauto.
Qed.

(** X2. Walkability does not depend on the order of the layers. *)
Theorem isWalkable_layer_order (mr1 mr2 : MapRenderer) (x y : Z) :
  width mr1 = width mr2 ->
  height mr1 = height mr2 ->
  Permutation (layers mr1) (layers mr2) ->
  isWalkable mr1 x y = isWalkable mr2 x y.
Proof.
  intros Hw Hh Hperm.
  assert (Hiff : isWalkable mr1 x y = true <-> isWalkable mr2 x y = true).
  { unfold isWalkable. rewrite Hw, Hh.
    destruct ((x <? 0) || (width mr2 <=? x) || (y <? 0) || (height mr2 <=? y));
      [tauto|].
    rewrite !noBlockingLayer_spec. split; intros Hall.
    - eapply Permutation_Forall; eassumption.
    - eapply Permutation_Forall; [apply Permutation_sym|]; eassumption. }
  destruct (isWalkable mr1 x y), (isWalkable mr2 x y); try reflexivity.
  - symmetry. now apply Hiff.
  - now apply Hiff.
Qed.

Lemma orchard_layers_permuted :
  Permutation (layers orchard) (layers orchardShuffled).
Proof.
  cbn. eapply perm_trans; [apply perm_skip; apply perm_swap|].
  eapply perm_trans; [apply perm_swap|]. apply Permutation_refl.
Defined.

Lemma isWalkable_layer_order_witness :
  width orchard = width orchardShuffled /\
  height orchard = height orchardShuffled /\
  Permutation (layers orchard) (layers orchardShuffled) /\
  isWalkable orchard 1 0 = isWalkable orchardShuffled 1 0.
Proof.
  split; [reflexivity|]. split; [reflexivity|].
  split; [exact orchard_layers_permuted|].
  exact (isWalkable_layer_order orchard orchardShuffled 1 0 eq_refl eq_refl
           orchard_layers_permuted).
Defined.

Lemma isBlockingTile_small (t : Z) : t < 384 -> isBlockingTile t = false.
Proof.
  intros Ht. unfold isBlockingTile.
  destruct (Z.eqb_spec t 0); [reflexivity|].
  destruct (Z.ltb_spec t 384); [|lia].
  destruct (Z.leb_spec 2048 t); [lia|reflexivity].
Qed.

(** X3. A position of the map where every layer holds an autotile or nothing
    is walkable: no tile below 384 ever stops the player. *)
Theorem autotiles_are_walkable (mr : MapRenderer) (x y : Z) :
  inBounds mr x y ->
  Forall (fun layer => forall t, tileAt layer x y = Some t -> t < 384)
         (layers mr) ->
  isWalkable mr x y = true.
Proof.
  intros Hin Hall. apply isWalkable_spec. split; [exact Hin|].
  eapply Forall_impl; [|exact Hall].
  intros l Hl t Ht. apply isBlockingTile_small. now apply Hl.
Qed.

Lemma autotiles_are_walkable_witness :
  inBounds stripMap 1 0 /\ isWalkable stripMap 1 0 = true.
Proof.
  assert (Hin : inBounds stripMap 1 0) by (unfold inBounds; cbn; lia).
  split; [exact Hin|].
  apply (autotiles_are_walkable stripMap 1 0 Hin).
  repeat constructor. cbn. intros t Ht. injection Ht as <-. reflexivity.
Defined.

Lemma isTallGrassOverlay_spec (t : Z) :
  isTallGrassOverlay t = true <-> 1656 <= t <= 1682 \/ 1784 <= t <= 1812.
Proof.
  unfold isTallGrassOverlay.
  destruct (Z.leb_spec 1656 t), (Z.leb_spec t 1682),
           (Z.leb_spec 1784 t), (Z.leb_spec t 1812); cbn;
    split; intros Hg; try discriminate; try reflexivity; lia.
Qed.

Lemma overlay_branch (mr : MapRenderer) (i x y : Z) :
  match layerTile mr i x y with
  | Some t => isTallGrassOverlay t
  | None => false
  end = true <-> overlayGrassAt mr i x y.
Proof.
  unfold overlayGrassAt. destruct (layerTile mr i x y) as [t|].
  - rewrite isTallGrassOverlay_spec. split.
    + intros Hr. exists t. now split.
    + intros (u & Hu & Hr). now injection Hu as <-.
  - split; [discriminate|]. intros (u & Hu & _). discriminate.
Qed.

(** X4. A position triggers the grass effect exactly when it lies on the map
    and layer 2 or layer 1 carries a tall-grass overlay tile there, or the
    base layer carries tile 389 or 390; the shorter grass 385..388 of the
    base layer never does by itself. *)
Theorem isGrassTile_iff (mr : MapRenderer) (x y : Z) :
  isGrassTile mr x y = true <->
  inBounds mr x y /\
  (overlayGrassAt mr 2 x y \/ overlayGrassAt mr 1 x y \/ baseGrassAt mr x y).
Proof.
  unfold isGrassTile.
  destruct ((x <? 0) || (width mr <=? x) || (y <? 0) || (height mr <=? y))
    eqn:Hg.
  - split; [discriminate|]. intros [Hin _].
    apply bounds_guard in Hin. congruence.
  - apply bounds_guard in Hg.
    pose proof (overlay_branch mr 2 x y) as H2.
    pose proof (overlay_branch mr 1 x y) as H1.
    destruct (match layerTile mr 2 x y with
              | Some t => isTallGrassOverlay t | None => false end).
    { split; [intros _|reflexivity]. split; [exact Hg|].
      left. now apply H2. }
    destruct (match layerTile mr 1 x y with
              | Some t => isTallGrassOverlay t | None => false end).
    { split; [intros _|reflexivity]. split; [exact Hg|].
      right; left. now apply H1. }
    assert (N2 : ~ overlayGrassAt mr 2 x y)
      by (intros H; apply H2 in H; discriminate).
    assert (N1 : ~ overlayGrassAt mr 1 x y)
      by (intros H; apply H1 in H; discriminate).
    unfold baseGrassAt. destruct (layerTile mr 0 x y) as [t|].
    + destruct (Z.eqb_spec t 389) as [->|H389]; cbn.
      { split; [intros _|reflexivity]. split; [exact Hg|]. right; right.
        now left. }
      destruct (Z.eqb_spec t 390) as [->|H390]; cbn.
      { split; [intros _|reflexivity]. split; [exact Hg|]. right; right.
        now right. }
      assert (Hf : (if (385 <=? t) && (t <=? 388) then false else false)
                   = false) by (destruct ((385 <=? t) && (t <=? 388)); reflexivity).
      rewrite Hf. split; [discriminate|].
      intros [_ [H|[H|[H|H]]]]; try contradiction; congruence.
    + split; [discriminate|].
      intros [_ [H|[H|[H|H]]]]; try contradiction; discriminate.
Qed.

(** X5. None of the tiles that trigger the grass effect is a blocking tile. *)
Theorem grass_tiles_do_not_block (t : Z) :
  isTallGrassOverlay t = true \/ t = 389 \/ t = 390 ->
  isBlockingTile t = false.
Proof.
  rewrite isTallGrassOverlay_spec. intros Ht.
  unfold isBlockingTile.
  destruct (Z.eqb_spec t 0); [reflexivity|].
  destruct (Z.ltb_spec t 384); [lia|].
  unfold blockingRanges, inRange. cbn.
  repeat match goal with
         | |- context [?a <=? ?b] => destruct (Z.leb_spec a b); cbn
         end; try reflexivity; lia.
Qed.

Lemma grass_tiles_do_not_block_witness :
  (isTallGrassOverlay 1660 = true \/ 1660 = 389 \/ 1660 = 390) /\
  isBlockingTile 1660 = false.
Proof.
  assert (H : isTallGrassOverlay 1660 = true \/ 1660 = 389 \/ 1660 = 390)
    by (left; reflexivity).
  split; [exact H|]. exact (grass_tiles_do_not_block 1660 H).
Defined.

(** ** Tile lookup *)



(** X7. Distinct static tiles of safe-integer size resolve to distinct
    tileset offsets: for identifiers from 384 up to 2^53, where the
    subtraction of 384 is exact, equal offsets mean equal identifiers, and
    the horizontal offset stays within the [tilesetColumns] columns. *)
Theorem static_tiles_resolve_apart (mr : MapRenderer) (t1 t2 : Z)
    (x1 y1 x2 y2 : option Z) :
  0 < tilesetColumns mr ->
  0 < tileSize mr ->
  384 <= t1 <= EXACT_LIMIT ->
  384 <= t2 <= EXACT_LIMIT ->
  (getTileCoords mr t1 x1 y1 = getTileCoords mr t2 x2 y2 -> t1 = t2) /\
  (exists c, getTileCoords mr t1 x1 y1 = Some c /\
             0 <= coordX c < tilesetColumns mr * tileSize mr /\
             0 <= coordY c).
Proof.
  intros Hc Hs H1 H2. unfold getTileCoords, js_mod, js_floor_div.
  destruct (Z.eqb_spec t1 0); [lia|]. destruct (Z.eqb_spec t2 0); [lia|].
  destruct (Z.ltb_spec t1 384); [lia|]. destruct (Z.ltb_spec t2 384); [lia|].
  rewrite !MapRendererFacts.js_sub_exact by (unfold EXACT_LIMIT in *; lia).
  rewrite !Z.rem_mod_nonneg by lia.
  pose proof (Z.mod_pos_bound (t1 - 384) (tilesetColumns mr) Hc) as Hm1.
  pose proof (Z.div_pos (t1 - 384) (tilesetColumns mr) ltac:(lia) Hc) as Hd1.
  split.
  - intros Heq. injection Heq as Hx Hy.
    apply Z.mul_cancel_r in Hx; [|lia]. apply Z.mul_cancel_r in Hy; [|lia].
    pose proof (Z.div_mod (t1 - 384) (tilesetColumns mr) ltac:(lia)) as E1.
    pose proof (Z.div_mod (t2 - 384) (tilesetColumns mr) ltac:(lia)) as E2.
    rewrite Hx, Hy in E1. lia.
  - eexists. split; [reflexivity|]. cbn. nia.
Qed.

Lemma static_tiles_resolve_apart_witness :
  0 < tilesetColumns emptyMap /\ 0 < tileSize emptyMap /\
  384 <= 397 <= EXACT_LIMIT /\ 384 <= 398 <= EXACT_LIMIT /\
  (getTileCoords emptyMap 397 None None = getTileCoords emptyMap 398 None None
   -> 397 = 398).
Proof.
  assert (Hc : 0 < tilesetColumns emptyMap) by reflexivity.
  assert (Hs : 0 < tileSize emptyMap) by reflexivity.
  assert (H1 : 384 <= 397 <= EXACT_LIMIT) by (split; discriminate).
  assert (H2 : 384 <= 398 <= EXACT_LIMIT) by (split; discriminate).
  split; [exact Hc|]. split; [exact Hs|].
  split; [exact H1|]. split; [exact H2|].
  exact (proj1 (static_tiles_resolve_apart emptyMap 397 398 None None None None
                  Hc Hs H1 H2)).
Defined.

(** Past 2^53 the subtraction rounds and two static tiles share an
    offset. *)
Example huge_tiles_share_an_offset :
  getTileCoords emptyMap 2305843009213693952 None None
  = getTileCoords emptyMap (2305843009213693952 - 256) None None.
Proof. reflexivity. Qed.

(** ** The autotile animation clock *)

Lemma animationTick_frame (n : nat) (mr : MapRenderer) :
  0 <= animationFrame mr < 4 ->
  animationFrame (Nat.iter n animationTick mr)
  = (animationFrame mr + Z.of_nat n) mod 4.
Proof.
  intros Hr. induction n as [|n IH].
  - cbn. rewrite Z.add_0_r. now rewrite Z.mod_small.
  - rewrite Nat.iter_succ.
    change (animationFrame (animationTick (Nat.iter n animationTick mr)))
      with (js_mod (animationFrame (Nat.iter n animationTick mr) + 1) 4).
    rewrite IH. unfold js_mod.
    rewrite Z.rem_mod_nonneg
      by (pose proof (Z.mod_pos_bound (animationFrame mr + Z.of_nat n) 4);
          lia).
    rewrite Nat2Z.inj_succ.
    replace (animationFrame mr + Z.succ (Z.of_nat n))
      with ((animationFrame mr + Z.of_nat n) + 1) by lia.
    rewrite Z.add_mod_idemp_l by lia. reflexivity.
Qed.

Lemma animationTick_keeps (n : nat) (mr : MapRenderer) :
  autotiles (Nat.iter n animationTick mr) = autotiles mr /\
  tileSize (Nat.iter n animationTick mr) = tileSize mr.
Proof.
  induction n as [|n IH]; [split; reflexivity|].
  rewrite Nat.iter_succ. exact IH.
Qed.

(** X8. After n ticks of the animation clock a fresh renderer is at frame
    n mod 4, and a tile whose slot image is a 128x32 strip is drawn from the
    strip at horizontal offset (n mod 4) times the tile size. *)
Theorem strip_autotile_cycles (mapData : MapData) (tileset0 : Image)
    (tileSize0 : Z) (autotiles0 : list (option Image)) (n : nat)
    (t : Z) (x y : option Z) (img : Image) :
  js_index autotiles0 (autotileSlot t) = Some (Some img) ->
  imageWidth img = 128 ->
  imageHeight img = 32 ->
  let mr :=
    Nat.iter n animationTick
             (new_MapRenderer mapData tileset0 tileSize0 autotiles0) in
  animationFrame mr = Z.of_nat n mod 4 /\
  getAutotileCoords mr t x y
  = Some (mkTileCoords ((Z.of_nat n mod 4) * tileSize0) 0 (Some img)
                       false None None None).
Proof.
  intros Hidx Hw Hh mr.
  assert (Hf : animationFrame mr = Z.of_nat n mod 4).
  { subst mr. rewrite animationTick_frame by (cbn; lia). reflexivity. }
  split; [exact Hf|].
  unfold getAutotileCoords.
  destruct (animationTick_keeps n
              (new_MapRenderer mapData tileset0 tileSize0 autotiles0))
    as [Ha Hs].
  fold mr in Ha, Hs. rewrite Ha, Hs. cbn [autotiles tileSize new_MapRenderer].
  rewrite Hidx, Hw, Hh. cbn [Z.eqb Pos.eqb andb].
  rewrite Hf. unfold js_mod.
  rewrite Z.rem_mod_nonneg
    by (pose proof (Z.mod_pos_bound (Z.of_nat n) 4); lia).
  rewrite Z.mod_mod by lia. reflexivity.
Qed.

Lemma strip_autotile_cycles_witness :
  js_index [Some (mkImage 1 128 32)] (autotileSlot 2)
  = Some (Some (mkImage 1 128 32)) /\
  getAutotileCoords (Nat.iter 6 animationTick stripMap) 2 (Some 1) (Some 0)
  = Some (mkTileCoords 64 0 (Some (mkImage 1 128 32)) false None None None).
Proof.
  split; [reflexivity|].
  exact (proj2 (strip_autotile_cycles
                  (mkMapData 2 2 [ [ [1; 2]; [3; 400] ] ])
                  (mkImage 0 256 4096) TILE_SIZE
                  [Some (mkImage 1 128 32)] 6 2 (Some 1) (Some 0)
                  (mkImage 1 128 32) eq_refl eq_refl eq_refl)).
Defined.

End CollisionFacts.

(* ================================================================== *)
(** * Further properties of the movement state machine *)
(* ================================================================== *)
Module MovementFacts.
Import PlayerTs.

Lemma js_mod_4_range (n : Z) : 0 <= n -> 0 <= js_mod n 4 < 4.
Proof.
  intros Hn. unfold js_mod. rewrite Z.rem_mod_nonneg by lia.
  apply Z.mod_pos_bound. lia.
Qed.

Lemma apply_op_frame (o : Op) (p : Player) :
  0 <= animationFrame p < 4 -> 0 <= animationFrame (apply_op o p) < 4.
Proof.
  intros Hr. destruct o as [dx dy|dt|x' y' d m]; cbn.
  - unfold startMove. destruct (isMoving p); cbn; exact Hr.
  - unfold update. destruct (isMoving p); cbn; [|exact Hr].
    destruct (1 <=? moveProgress p + moveSpeed p * dt)%float; cbn; [lia|].
    destruct (frameInterval p <=? animationTimer p + dt)%float; [|exact Hr].
    apply js_mod_4_range. lia.
  - destruct (m && negb (isMoving p)); [lia|exact Hr].
Qed.

Lemma run_frame (ops : list Op) :
  forall p, 0 <= animationFrame p < 4 -> 0 <= animationFrame (run ops p) < 4.
Proof.
  induction ops as [|o ops IH]; intros p Hr; cbn; [exact Hr|].
  apply IH. now apply apply_op_frame.
Qed.

(** X9. Through any sequence of moves, frames and network updates the walk
    frame stays between 0 and 3, so the 32x48 cell that [render] copies
    lies inside the 128x192 sprite sheet; a standing player is drawn from
    the second column. *)
Theorem sprite_cell_stays_in_sheet (p : Player) (ops : list Op) :
  0 <= animationFrame p < 4 ->
  0 <= animationFrame (run ops p) < 4 /\
  0 <= fst (renderSource (run ops p)) /\
  fst (renderSource (run ops p)) + 32 <= 128 /\
  0 <= snd (renderSource (run ops p)) /\
  snd (renderSource (run ops p)) + 48 <= 192 /\
  (isMoving (run ops p) = false -> fst (renderSource (run ops p)) = 32).
Proof.
  intros Hr. pose proof (run_frame ops p Hr) as Hq.
  split; [exact Hq|].
  unfold renderSource, renderFrame. cbn [fst snd].
  destruct (isMoving (run ops p)).
  - pose proof (js_mod_4_range (animationFrame (run ops p)) (proj1 Hq)).
    destruct (direction (run ops p)); cbn; repeat split; try lia;
      discriminate.
  - destruct (direction (run ops p)); cbn; repeat split; lia.
Qed.

Lemma sprite_cell_stays_in_sheet_witness :
  0 <= animationFrame standing < 4 /\
  fst (renderSource (run sample_ops standing)) + 32 <= 128.
Proof.
  assert (H : 0 <= animationFrame standing < 4) by (cbn; lia).
  split; [exact H|].
  exact (proj1 (proj2 (proj2 (sprite_cell_stays_in_sheet standing sample_ops
                                 H)))).
Defined.

(** X10. Movement round trip: an idle player that accepts a move and then
    receives a frame long enough to complete it stands on the start tile
    plus the delta, idle, with progress 0 and its target on its position;
    the callback, if installed, is told the arrival tile.  Start tile,
    delta and arrival tile are integers of magnitude at most 2^53, where
    the sums of the source are exact. *)
Theorem move_then_frame_arrives (dx dy : Z) (dt : float) (p : Player) :
  isMoving p = false ->
  (1 <=? 0 + moveSpeed p * dt)%float = true ->
  exactSum (x p) dx ->
  exactSum (y p) dy ->
  let moving := snd (fst (startMove dx dy p)) in
  let arrived := fst (update dt moving) in
  (x arrived, y arrived) = (x p + dx, y p + dy) /\
  (targetX arrived, targetY arrived) = (x p + dx, y p + dy) /\
  isMoving arrived = false /\
  moveProgress arrived = 0%float /\
  animationFrame arrived = 0 /\
  direction arrived = move_direction dx dy (direction p) /\
  coordsWithin EXACT_LIMIT arrived /\
  snd (update dt moving)
  = LogMovementComplete (x p + dx) (y p + dy)
      :: (if onMove p
          then [OnMove (x p + dx) (y p + dy)
                       (move_direction dx dy (direction p)) false]
          else []).
Proof.
  intros Hidle Hdone Hsx Hsy moving arrived. subst arrived moving.
  unfold startMove. rewrite Hidle. cbn [fst snd].
  unfold update. cbn [isMoving moveProgress moveSpeed]. rewrite Hdone.
  cbn. repeat split; first [apply Hsx | apply Hsy].
Qed.

Lemma move_then_frame_arrives_witness :
  isMoving standing = false /\
  (1 <=? 0 + moveSpeed standing * 0.25)%float = true /\
  exactSum (x standing) 1 /\
  exactSum (y standing) 0 /\
  (x (fst (update 0.25%float (snd (fst (startMove 1 0 standing))))),
   y (fst (update 0.25%float (snd (fst (startMove 1 0 standing))))))
  = (x standing + 1, y standing + 0).
Proof.
  assert (Hsx : exactSum (x standing) 1)
    by (unfold exactSum, within, EXACT_LIMIT; cbn; lia).
  assert (Hsy : exactSum (y standing) 0)
    by (unfold exactSum, within, EXACT_LIMIT; cbn; lia).
  split; [reflexivity|]. split; [reflexivity|].
  split; [exact Hsx|]. split; [exact Hsy|].
  exact (proj1 (move_then_frame_arrives 1 0 0.25%float standing
                  eq_refl eq_refl Hsx Hsy)).
Defined.

(** X11. A frame never retargets or turns the player and never starts a move;
    the position either stays or becomes the target, the latter exactly
    when the move completes, which is also exactly when the callback of a
    player that has one is invoked. *)
Theorem update_moves_only_to_target (dt : float) (p : Player) :
  (targetX (fst (update dt p)), targetY (fst (update dt p)),
   direction (fst (update dt p)))
  = (targetX p, targetY p, direction p) /\
  (isMoving (fst (update dt p)) = true -> isMoving p = true) /\
  ((isMoving p = true /\ isMoving (fst (update dt p)) = false /\
    (x (fst (update dt p)), y (fst (update dt p))) = (targetX p, targetY p) /\
    existsb is_OnMove (snd (update dt p)) = onMove p)
   \/
   (isMoving (fst (update dt p)) = isMoving p /\
    (x (fst (update dt p)), y (fst (update dt p))) = (x p, y p) /\
    snd (update dt p) = [])).
Proof.
  unfold update. destruct (isMoving p) eqn:Hm.
  - destruct (1 <=? moveProgress p + moveSpeed p * dt)%float; cbn.
    + repeat split. left. repeat split. now destruct (onMove p).
    + repeat split. right. repeat split.
  - cbn. repeat split; [congruence|]. right. repeat split. exact Hm.
Qed.

Lemma replay_app (es1 es2 : list Effect) (q : Player) :
  replay (es1 ++ es2) q = replay es2 (replay es1 q).
Proof. unfold replay. apply fold_left_app. Qed.

Lemma replay_step (o : Op) (p q : Player) :
  onMove p = true ->
  localOp o ->
  kinematics q = kinematics p ->
  kinematics (replay (op_effects o p) q) = kinematics (apply_op o p) /\
  onMove (apply_op o p) = true.
Proof.
  intros Hcb Hlocal Hkin. destruct o as [dx dy|dt|x' y' d m]; cbn in *.
  - unfold startMove. destruct (isMoving p) eqn:Hm; cbn.
    + split; assumption.
    + rewrite Hcb. cbn. split; [|reflexivity].
      unfold kinematics, setState, move_direction. cbn.
      destruct Hlocal as [[-> [->| ->]]|[[->| ->] ->]]; cbn;
        repeat f_equal; lia.
  - unfold update. destruct (isMoving p) eqn:Hm; cbn.
    + destruct (1 <=? moveProgress p + moveSpeed p * dt)%float; cbn.
      * rewrite Hcb. cbn. split; reflexivity.
      * split; [|exact Hcb]. rewrite Hkin. unfold kinematics. cbn.
        now rewrite Hm.
    + split; assumption.
  - contradiction.
Qed.

(** X12. A replica that starts with the local player's position, target,
    direction and motion flag, and is fed every [onMove] call as a
    [setState], has the local player's position, target, direction and
    motion flag after any sequence of one-tile moves and frames. *)
Theorem replica_tracks_local_player (ops : list Op) (p q : Player) :
  onMove p = true ->
  Forall localOp ops ->
  kinematics q = kinematics p ->
  kinematics (replay (trace ops p) q) = kinematics (run ops p).
Proof.
  revert p q. induction ops as [|o ops IH]; intros p q Hcb Hall Hkin.
  - exact Hkin.
  - inversion Hall as [|? ? Ho Hrest]; subst.
    cbn [trace run fold_left]. rewrite replay_app.
    destruct (replay_step o p q Hcb Ho Hkin) as [Hk Hcb'].
    apply (IH (apply_op o p)); assumption.
Qed.

Lemma replica_tracks_local_player_witness :
  onMove standing = true /\
  Forall localOp sample_local_ops /\
  kinematics (new_Player 3 4 7 32) = kinematics standing /\
  kinematics (replay (trace sample_local_ops standing) (new_Player 3 4 7 32))
  = kinematics (run sample_local_ops standing).
Proof.
  assert (Hops : Forall localOp sample_local_ops).
  { unfold sample_local_ops.
    repeat (apply Forall_cons;
            [cbn; unfold unit_delta; first [exact I | lia]|]).
    apply Forall_nil. }
  split; [reflexivity|]. split; [exact Hops|]. split; [reflexivity|].
  exact (replica_tracks_local_player sample_local_ops standing
           (new_Player 3 4 7 32) eq_refl Hops eq_refl).
Defined.

End MovementFacts.

(* ================================================================== *)
(** * Properties of the map transition table *)
(* ================================================================== *)
Module TransitionFacts.
Import MapTransitionsTs.

Lemma checkTransitionIn_step (tr : MapTransition) (rest : list MapTransition)
    (m px py w h : Z) :
  checkTransitionIn (tr :: rest) m px py w h
  = if applies m px py w h tr then Some tr
    else checkTransitionIn rest m px py w h.
Proof.
  cbn [checkTransitionIn]. unfold applies.
  destruct (fromMap tr =? m); cbn; [|reflexivity].
  destruct (triggered tr px py w h); cbn; [|reflexivity].
  destruct (inTileRange tr px py); reflexivity.
Qed.

Lemma interior_not_triggered (tr : MapTransition) (px py w h : Z) :
  0 < px < w - 1 -> 0 < py < h - 1 -> triggered tr px py w h = false.
Proof.
  intros Hx Hy. unfold triggered.
  destruct (edge tr);
    match goal with
    | |- (?a <=? ?b) = false => destruct (Z.leb_spec a b); [lia|reflexivity]
    end.
Qed.

(** X13. A position strictly inside the map, away from all four edges, triggers
    no transition, whatever the map and whatever the rule table. *)
Theorem interior_triggers_nothing (table : list MapTransition)
    (m px py w h : Z) :
  0 < px < w - 1 ->
  0 < py < h - 1 ->
  checkTransitionIn table m px py w h = None.
Proof.
  intros Hx Hy. induction table as [|tr rest IH]; [reflexivity|].
  rewrite checkTransitionIn_step. unfold applies.
  rewrite (interior_not_triggered tr px py w h Hx Hy).
  rewrite andb_false_r. exact IH.
Qed.

Lemma interior_triggers_nothing_witness :
  0 < 10 < 40 - 1 /\ 0 < 10 < 24 - 1 /\ checkTransition 79 10 10 40 24 = None.
Proof.
  assert (Hx : 0 < 10 < 40 - 1) by (cbn; lia).
  assert (Hy : 0 < 10 < 24 - 1) by (cbn; lia).
  split; [exact Hx|]. split; [exact Hy|].
  exact (interior_triggers_nothing MAP_TRANSITIONS 79 10 10 40 24 Hx Hy).
Defined.

(** X14. The first rule of the table that applies wins: the result is a rule
    exactly when it applies and no rule listed before it does, and there is
    no result exactly when no rule applies. *)
Theorem first_applicable_rule_wins (table : list MapTransition)
    (m px py w h : Z) :
  (forall r,
     checkTransitionIn table m px py w h = Some r <->
     exists before after,
       table = before ++ r :: after /\
       applies m px py w h r = true /\
       Forall (fun t => applies m px py w h t = false) before) /\
  (checkTransitionIn table m px py w h = None <->
   Forall (fun t => applies m px py w h t = false) table).
Proof.
  induction table as [|tr rest [IHsome IHnone]].
  - split.
    + intros r. split; [discriminate|].
      intros (before & after & Heq & _). now destruct before.
    + split; [constructor|reflexivity].
  - rewrite checkTransitionIn_step.
    destruct (applies m px py w h tr) eqn:Ha; split.
    + intros r. split.
      * intros Hr. injection Hr as <-. exists [], rest.
        repeat split; [exact Ha|constructor].
      * intros (before & after & Heq & Hr & Hbefore).
        destruct before as [|b before]; cbn in Heq.
        -- now injection Heq as ->.
        -- injection Heq as -> _. inversion Hbefore; congruence.
    + split; [discriminate|]. intros Hall. inversion Hall; congruence.
    + intros r. rewrite IHsome. split.
      * intros (before & after & -> & Hr & Hbefore).
        exists (tr :: before), after. repeat split; auto.
      * intros (before & after & Heq & Hr & Hbefore).
        destruct before as [|b before]; cbn in Heq.
        -- injection Heq as -> _. congruence.
        -- injection Heq as -> ->. inversion Hbefore; subst.
           exists before, after. repeat split; auto.
    + rewrite IHnone. split.
      * intros Hall. constructor; assumption.
      * intros Hall. now inversion Hall.
Qed.

(** X15. For every rule of the game's table there is a rule leading back, and
    arriving at the rule's spawn point does not trigger a transition on the
    destination map, provided that map has a row below the spawn row. *)
Theorem spawn_points_are_safe (r : MapTransition) (w h : Z) :
  In r MAP_TRANSITIONS ->
  spawnY r + 1 < h ->
  checkTransition (toMap r) (spawnX r) (spawnY r) w h = None /\
  exists back, In back MAP_TRANSITIONS /\
               fromMap back = toMap r /\ toMap back = fromMap r.
Proof.
  intros [<-|[<-|[]]] Hh; cbn in Hh; split.
  - unfold checkTransition, MAP_TRANSITIONS.
    rewrite !checkTransitionIn_step. unfold applies, triggered. cbn.
    destruct (Z.leb_spec (h - 1) 22); [lia|reflexivity].
  - eexists. split; [right; left; reflexivity|split; reflexivity].
  - reflexivity.
  - eexists. split; [left; reflexivity|split; reflexivity].
Qed.

Lemma spawn_points_are_safe_witness :
  In (mkMapTransition 79 north 5 20 22 (Some 20) (Some 21)) MAP_TRANSITIONS /\
  22 + 1 < 24 /\
  checkTransition 5 20 22 40 24 = None.
Proof.
  assert (Hin : In (mkMapTransition 79 north 5 20 22 (Some 20) (Some 21))
                   MAP_TRANSITIONS) by (left; reflexivity).
  assert (Hh : 22 + 1 < 24) by reflexivity.
  split; [exact Hin|]. split; [exact Hh|].
  exact (proj1 (spawn_points_are_safe _ 40 24 Hin Hh)).
Defined.

End TransitionFacts.

(* ================================================================== *)
(** * Properties of the grass animations *)
(* ================================================================== *)
Module GrassFacts.
Import GrassAnimationTs.

Lemma existsAt_position (tx ty : Z) (l : list GrassAnimationInstance) :
  existsAt tx ty l = true <-> In (tx, ty) (map position l).
Proof.
  unfold existsAt. rewrite existsb_exists, in_map_iff. split.
  - intros (a & Hin & Ha). apply andb_prop in Ha as [Hx Hy].
    apply Z.eqb_eq in Hx, Hy. exists a. split; [|exact Hin].
    unfold position. now rewrite Hx, Hy.
  - intros (a & Hp & Hin). exists a. split; [exact Hin|].
    unfold position in Hp. injection Hp as Hx Hy.
    now rewrite Hx, Hy, !Z.eqb_refl.
Qed.

(** X16. Triggering the effect on a tile that already shows it changes nothing,
    so triggering twice is triggering once; after a trigger the tile shows
    the effect. *)
Theorem trigger_is_idempotent (tx ty : Z) (m : GrassAnimationManager) :
  trigger tx ty (trigger tx ty m) = trigger tx ty m /\
  existsAt tx ty (animations (trigger tx ty m)) = true /\
  (existsAt tx ty (animations m) = true -> trigger tx ty m = m).
Proof.
  assert (Hafter : existsAt tx ty (animations (trigger tx ty m)) = true).
  { unfold trigger. destruct (existsAt tx ty (animations m)) eqn:He.
    - exact He.
    - cbn. unfold existsAt. rewrite existsb_app. cbn.
      rewrite !Z.eqb_refl. cbn. apply orb_true_r. }
  split; [|split; [exact Hafter|]].
  - unfold trigger at 1. now rewrite Hafter.
  - intros He. unfold trigger. now rewrite He.
Qed.

Lemma advance_origin (fd dt : float) (a a' : GrassAnimationInstance) :
  advance fd dt a = Some a' ->
  position a' = position a /\ maxFrames a' = maxFrames a /\
  (frame a' = frame a \/
   (frame a' = frame a + 1 /\ frame a + 1 < maxFrames a)).
Proof.
  unfold advance. destruct (fd <=? timer a + dt)%float.
  - destruct (Z.leb_spec (maxFrames a) (frame a + 1)) as [Hge|Hlt];
      [discriminate|].
    intros Heq. injection Heq as <-. cbn. repeat split. right. now split.
  - intros Heq. injection Heq as <-. cbn. repeat split. now left.
Qed.

Lemma filterAdvance_origin (fd dt : float) (l : list GrassAnimationInstance)
    (a' : GrassAnimationInstance) :
  In a' (filterAdvance fd dt l) ->
  exists a, In a l /\ advance fd dt a = Some a'.
Proof.
  induction l as [|a l IH]; cbn; [tauto|].
  destruct (advance fd dt a) as [b|] eqn:Ha.
  - intros [<-|Hin].
    + exists a. split; [now left|exact Ha].
    + destruct (IH Hin) as (c & Hc & Hadv). exists c. split; [now right|exact Hadv].
  - intros Hin. destruct (IH Hin) as (c & Hc & Hadv).
    exists c. split; [now right|exact Hadv].
Qed.

Lemma filterAdvance_length (fd dt : float) (l : list GrassAnimationInstance) :
  (List.length (filterAdvance fd dt l) <= List.length l)%nat.
Proof.
  induction l as [|a l IH]; cbn; [lia|].
  destruct (advance fd dt a); cbn; lia.
Qed.

(** X17. A frame update creates no animation: each one left after it continues
    one that was there, on the same tile, at the same frame or the next,
    and still short of the last frame. *)
Theorem update_only_advances (dt : float) (m : GrassAnimationManager) :
  (List.length (animations (update dt m)) <= List.length (animations m))%nat
  /\
  forall a', In a' (animations (update dt m)) ->
    exists a, In a (animations m) /\
              position a' = position a /\ maxFrames a' = maxFrames a /\
              (frame a' = frame a \/
               (frame a' = frame a + 1 /\ frame a + 1 < maxFrames a)).
Proof.
  split; [apply filterAdvance_length|].
  intros a' Hin. cbn in Hin.
  destruct (filterAdvance_origin _ _ _ _ Hin) as (a & Ha & Hadv).
  exists a. split; [exact Ha|]. now apply advance_origin in Hadv.
Qed.

Lemma filterAdvance_positions (fd dt : float)
    (l : list GrassAnimationInstance) (pos : Z * Z) :
  In pos (map position (filterAdvance fd dt l)) -> In pos (map position l).
Proof.
  rewrite !in_map_iff. intros (a' & <- & Hin).
  destruct (filterAdvance_origin _ _ _ _ Hin) as (a & Ha & Hadv).
  exists a. split; [|exact Ha]. apply advance_origin in Hadv. symmetry.
  tauto.
Qed.

Lemma filterAdvance_NoDup (fd dt : float) (l : list GrassAnimationInstance) :
  NoDup (map position l) -> NoDup (map position (filterAdvance fd dt l)).
Proof.
  induction l as [|a l IH]; cbn; intros Hnd; [constructor|].
  inversion Hnd as [|? ? Hnotin Hrest]; subst.
  destruct (advance fd dt a) as [b|] eqn:Ha; [|now apply IH].
  cbn. constructor; [|now apply IH].
  apply advance_origin in Ha as (Hp & _). rewrite Hp.
  intros Hin. apply Hnotin. now apply filterAdvance_positions in Hin.
Qed.

Lemma apply_op_wellFormed (o : Op) (m : GrassAnimationManager) :
  wellFormed m -> wellFormed (apply_op o m).
Proof.
  intros [Hnd Hfr]. destruct o as [tx ty|dt|]; cbn.
  - unfold trigger. destruct (existsAt tx ty (animations m)) eqn:He;
      [now split|].
    split; cbn.
    + rewrite map_app. cbn. apply NoDup_app; [exact Hnd| |].
      * repeat constructor. intros [].
      * intros pos Hin [<-|[]]. apply existsAt_position in Hin.
        cbn in Hin. congruence.
    + apply Forall_app. split; [exact Hfr|].
      repeat constructor. cbn. lia.
  - split; cbn.
    + now apply filterAdvance_NoDup.
    + apply Forall_forall. intros a' Hin.
      destruct (filterAdvance_origin _ _ _ _ Hin) as (a & Ha & Hadv).
      rewrite Forall_forall in Hfr. destruct (Hfr a Ha) as [Hmax Hrange].
      apply advance_origin in Hadv as (_ & Hm & Hf).
      unfold frameInRange. rewrite Hm. split; [exact Hmax|]. lia.
  - split; cbn; constructor.
Qed.

(** X18. Whatever is triggered, updated or cleared, there is at most one
    animation per tile and each is a four-frame animation at a frame from 0
    to 3; a new manager starts that way. *)
Theorem animations_stay_well_formed (ops : list Op) (m : GrassAnimationManager) :
  wellFormed m -> wellFormed (run ops m).
Proof.
  revert m. induction ops as [|o ops IH]; intros m Hwf; cbn; [exact Hwf|].
  apply IH. now apply apply_op_wellFormed.
Qed.

Lemma new_manager_wellFormed (tileSize0 : Z) :
  wellFormed (new_GrassAnimationManager tileSize0).
Proof. split; cbn; constructor. Defined.

Lemma animations_stay_well_formed_witness :
  wellFormed (new_GrassAnimationManager 32) /\
  wellFormed (run sample_grass_ops (new_GrassAnimationManager 32)).
Proof.
  split; [exact (new_manager_wellFormed 32)|].
  exact (animations_stay_well_formed sample_grass_ops
           (new_GrassAnimationManager 32) (new_manager_wellFormed 32)).
Defined.

End GrassFacts.

(* ================================================================== *)
(** * Properties of keyboard control *)
(* ================================================================== *)
Module InputFacts.
Import InputHandlerTs.

Lemma heldDelta_cases (keys : KeySet) :
  heldDelta keys = (0, 0) \/
  PlayerTs.unit_delta (fst (heldDelta keys)) (snd (heldDelta keys)).
Proof.
  unfold heldDelta, PlayerTs.unit_delta.
  repeat match goal with
         | |- context [if ?c then _ else _] => destruct c
         end; cbn; first [left; reflexivity | right; lia].
Qed.

Lemma update_cases (keys : KeySet)
    (mr : MapRendererTs.MapRenderer) (p : PlayerTs.Player) :
  let dx := fst (heldDelta keys) in
  let dy := snd (heldDelta keys) in
  (PlayerTs.isMoving p = true -> update keys mr p = (p, [])) /\
  (fst (update keys mr p) = p \/
   (PlayerTs.isMoving p = false /\ PlayerTs.unit_delta dx dy /\
    MapRendererTs.isWalkable mr (PlayerTs.x p + dx) (PlayerTs.y p + dy) = true /\
    fst (update keys mr p) = snd (fst (PlayerTs.startMove dx dy p)) /\
    PlayerTs.isMoving (fst (update keys mr p)) = true)) /\
  (forall e, In (FromPlayer e) (snd (update keys mr p)) ->
     PlayerTs.isMoving p = false /\
     MapRendererTs.isWalkable mr (PlayerTs.x p + dx) (PlayerTs.y p + dy) = true).
Proof.
  intros dx dy. unfold update. fold dx dy.
  destruct (PlayerTs.isMoving p) eqn:Hm.
  { split; [reflexivity|]. split; [now left|]. intros e []. }
  split; [discriminate|].
  destruct ((dx =? 0) && (dy =? 0)) eqn:Hz.
  { split; [now left|]. intros e []. }
  destruct (MapRendererTs.isWalkable mr (PlayerTs.x p + dx) (PlayerTs.y p + dy))
    eqn:Hw.
  - split.
    + right. repeat split.
      * destruct (heldDelta_cases keys) as [H0|Hu]; [|exact Hu].
        unfold dx, dy in Hz. rewrite H0 in Hz. discriminate.
      * cbn [fst]. unfold PlayerTs.startMove. now rewrite Hm.
    + intros e _. now split.
  - split; [now left|]. cbn. intros e [H|[]]. discriminate.
Qed.

(** X19. One poll of the keyboard either leaves the player alone or starts a
    single one-tile move of an idle player onto a walkable tile; it does
    nothing while the player is moving, and a blocked or absent direction
    never reaches the player. *)
Theorem poll_starts_single_steps (keys : KeySet)
    (mr : MapRendererTs.MapRenderer) (p : PlayerTs.Player) :
  let dx := fst (heldDelta keys) in
  let dy := snd (heldDelta keys) in
  (PlayerTs.isMoving p = true -> update keys mr p = (p, [])) /\
  (fst (update keys mr p) = p \/
   (PlayerTs.isMoving p = false /\ PlayerTs.unit_delta dx dy /\
    MapRendererTs.isWalkable mr (PlayerTs.x p + dx) (PlayerTs.y p + dy) = true /\
    fst (update keys mr p) = snd (fst (PlayerTs.startMove dx dy p)) /\
    PlayerTs.isMoving (fst (update keys mr p)) = true)) /\
  (forall e, In (FromPlayer e) (snd (update keys mr p)) ->
     PlayerTs.isMoving p = false /\
     MapRendererTs.isWalkable mr (PlayerTs.x p + dx) (PlayerTs.y p + dy) = true).
Proof.
  intros dx dy. unfold update. fold dx dy.
  destruct (PlayerTs.isMoving p) eqn:Hm.
  { split; [reflexivity|]. split; [now left|]. intros e []. }
  split; [discriminate|].
  destruct ((dx =? 0) && (dy =? 0)) eqn:Hz.
  { split; [now left|]. intros e []. }
  destruct (MapRendererTs.isWalkable mr (PlayerTs.x p + dx) (PlayerTs.y p + dy))
    eqn:Hw.
  - split.
    + right. repeat split.
      * destruct (heldDelta_cases keys) as [H0|Hu]; [|exact Hu].
        unfold dx, dy in Hz. rewrite H0 in Hz. discriminate.
      * cbn [fst]. unfold PlayerTs.startMove. now rewrite Hm.
    + intros e _. now split.
  - split; [now left|]. cbn. intros e [H|[]]. discriminate.
Qed.

Lemma react_keeps_invariant (mr : MapRendererTs.MapRenderer) (ev : Event)
    (st : KeySet * PlayerTs.Player) :
  onWalkableGround mr (snd st) /\ PlayerTs.motion_invariant (snd st) ->
  onWalkableGround mr (snd (react mr ev st)) /\
  PlayerTs.motion_invariant (snd (react mr ev st)).
Proof.
  destruct st as [keys p]. cbn [snd fst]. intros [[Hpos Htgt] Hinv].
  destruct ev as [key|key| |dt]; cbn [react fst snd].
  - now repeat split.
  - now repeat split.
  - destruct (update_cases keys mr p) as (_ & [Heq|Hstart] & _).
    + rewrite Heq. now repeat split.
    + destruct Hstart as (Hm & Hu & Hw & Heq & _). rewrite Heq.
      split.
      * unfold onWalkableGround, PlayerTs.startMove. rewrite Hm. cbn.
        split; assumption.
      * now apply PlayerFacts.startMove_preserves.
  - split; [|now apply PlayerFacts.update_preserves].
    unfold onWalkableGround, PlayerTs.update.
    destruct (PlayerTs.isMoving p); [|now split].
    destruct (1 <=? PlayerTs.moveProgress p + PlayerTs.moveSpeed p * dt)%float;
      cbn; now split.
Qed.

(** X20. Under keyboard control the player never leaves walkable ground: from a
    player standing on a walkable tile, any interleaving of key presses, key
    releases, input polls and frames keeps both the position and the target
    on walkable tiles of the map, and keeps the target at most one tile
    ahead. *)
Theorem player_stays_on_walkable_ground (mr : MapRendererTs.MapRenderer)
    (evs : list Event) (keys : KeySet) (p : PlayerTs.Player) :
  onWalkableGround mr p ->
  PlayerTs.motion_invariant p ->
  onWalkableGround mr (snd (play mr evs (keys, p))) /\
  PlayerTs.motion_invariant (snd (play mr evs (keys, p))).
Proof.
  intros Hw Hinv.
  assert (H : onWalkableGround mr (snd (keys, p)) /\
              PlayerTs.motion_invariant (snd (keys, p))) by now split.
  revert H. generalize (keys, p). clear.
  induction evs as [|ev evs IH]; intros st H; cbn; [exact H|].
  apply IH. now apply react_keeps_invariant.
Qed.

Lemma player_stays_on_walkable_ground_witness :
  onWalkableGround MapRendererTs.orchard walker /\
  PlayerTs.motion_invariant walker /\
  onWalkableGround MapRendererTs.orchard
    (snd (play MapRendererTs.orchard sample_events ([], walker))).
Proof.
  assert (Hw : onWalkableGround MapRendererTs.orchard walker)
    by (split; reflexivity).
  assert (Hinv : PlayerTs.motion_invariant walker) by (split; reflexivity).
  split; [exact Hw|]. split; [exact Hinv|].
  exact (proj1 (player_stays_on_walkable_ground MapRendererTs.orchard
                  sample_events [] walker Hw Hinv)).
Defined.

(** The sample run: the player walks up to (0,0), is refused the step right
    into the tree at (1,0), and walks back down. *)
Example sample_walk :
  PlayerTs.kinematics
    (snd (play MapRendererTs.orchard (firstn 7 sample_events) ([], walker)))
  = (0, 0, 0, 0, Up, false) /\
  PlayerTs.kinematics
    (snd (play MapRendererTs.orchard sample_events ([], walker)))
  = (0, 1, 0, 1, Down, false).
Proof. split; reflexivity. Qed.

(** ** Key bookkeeping *)

Lemma lower_ascii_not_upper_A (c : ascii) : lower_ascii c <> "A"%char.
Proof.
  destruct c as [[] [] [] [] [] [] [] []]; cbv; discriminate.
Qed.

Lemma toLowerCase_not_capitalised (s rest : string) :
  toLowerCase s <> String "A"%char rest.
Proof.
  destruct s as [|c s']; cbn; [discriminate|].
  intros H. injection H as Hc _. now apply lower_ascii_not_upper_A in Hc.
Qed.

Lemma eqb_capitalised (s rest : string) :
  String.eqb (toLowerCase s) (String "A"%char rest) = false.
Proof.
  apply String.eqb_neq. apply toLowerCase_not_capitalised.
Qed.

(** X21. [preventDefault] is called exactly for the keys that lower-case to w,
    a, s or d: the four arrow-key names of the list are compared with a
    lower-cased key and can never match, so the default action of the arrow
    keys is not prevented. *)
Theorem default_prevented_only_for_wasd (key : string) (keys : KeySet) :
  (snd (handleKeyDown key keys) = true <->
   In (toLowerCase key) ["w"; "a"; "s"; "d"]%string) /\
  (In key ["ArrowUp"; "ArrowDown"; "ArrowLeft"; "ArrowRight"]%string ->
   snd (handleKeyDown key keys) = false).
Proof.
  assert (Hiff : snd (handleKeyDown key keys) = true <->
                 In (toLowerCase key) ["w"; "a"; "s"; "d"]%string).
  { unfold handleKeyDown, preventedKeys. cbn [snd existsb].
    rewrite !eqb_capitalised. cbn [orb In].
    rewrite !orb_true_iff, !String.eqb_eq. intuition congruence. }
  split; [exact Hiff|].
  intros Hin. destruct (snd (handleKeyDown key keys)); [|reflexivity].
  destruct Hiff as [Hto _]. specialize (Hto eq_refl).
  cbn in Hin. destruct Hin as [<-|[<-|[<-|[<-|[]]]]]; cbn in Hto;
    intuition discriminate.
Qed.

Lemma set_has_in (key : string) (s : KeySet) :
  set_has key s = true <-> In key s.
Proof.
  unfold set_has. rewrite existsb_exists. split.
  - intros (k & Hin & Hk). apply String.eqb_eq in Hk. now subst.
  - intros Hin. exists key. split; [exact Hin|apply String.eqb_refl].
Qed.

Lemma set_delete_in (key k : string) (s : KeySet) :
  NoDup s -> (In k (set_delete key s) <-> In k s /\ k <> key).
Proof.
  induction s as [|h s IH]; cbn; intros Hnd; [tauto|].
  inversion Hnd as [|? ? Hh Hrest]; subst.
  destruct (String.eqb_spec h key) as [->|Hne].
  - split.
    + intros Hin. split; [now right|]. intros ->. contradiction.
    + intros [[Heq|Hin] Hk]; [congruence|exact Hin].
  - cbn. rewrite (IH Hrest). split.
    + intros [<-|[Hin Hk]]; [split; [now left|exact Hne]|split; [now right|exact Hk]].
    + intros [[<-|Hin] Hk]; [now left|right; now split].
Qed.

Lemma set_delete_NoDup (key : string) (s : KeySet) :
  NoDup s -> NoDup (set_delete key s).
Proof.
  induction s as [|h s IH]; cbn; intros Hnd; [constructor|].
  inversion Hnd as [|? ? Hh Hrest]; subst.
  destruct (String.eqb h key); [exact Hrest|].
  constructor; [|now apply IH].
  intros Hin. apply (set_delete_in key h s Hrest) in Hin. tauto.
Qed.

(** The held keys behave as a set: a key is held from its key-down to its
    key-up, repeated key-downs do not pile up, and the other keys are not
    affected. *)
Theorem held_keys_are_a_set (key : string) (keys : KeySet) :
  NoDup keys ->
  NoDup (fst (handleKeyDown key keys)) /\
  NoDup (handleKeyUp key keys) /\
  set_has key (fst (handleKeyDown key keys)) = true /\
  set_has key (handleKeyUp key (fst (handleKeyDown key keys))) = false /\
  fst (handleKeyDown key (fst (handleKeyDown key keys)))
  = fst (handleKeyDown key keys) /\
  (forall k, k <> key ->
     set_has k (fst (handleKeyDown key keys)) = set_has k keys /\
     set_has k (handleKeyUp key keys) = set_has k keys).
Proof.
  intros Hnd. unfold handleKeyDown, handleKeyUp. cbn [fst].
  assert (Hadd : NoDup (set_add key keys)).
  { unfold set_add. destruct (set_has key keys) eqn:Hh; [exact Hnd|].
    apply NoDup_app; [exact Hnd|repeat constructor; intros []|].
    intros k Hin [<-|[]]. apply set_has_in in Hin. congruence. }
  assert (Hhas : set_has key (set_add key keys) = true).
  { unfold set_add. destruct (set_has key keys) eqn:Hh; [exact Hh|].
    apply set_has_in. apply in_or_app. right. now left. }
  split; [exact Hadd|]. split; [now apply set_delete_NoDup|].
  split; [exact Hhas|]. split; [|split].
  - destruct (set_has key (set_delete key (set_add key keys))) eqn:Hd;
      [|reflexivity].
    apply set_has_in in Hd. apply set_delete_in in Hd; [|exact Hadd]. tauto.
  - unfold set_add at 1. now rewrite Hhas.
  - intros k Hk. split.
    + unfold set_add. destruct (set_has key keys); [reflexivity|].
      unfold set_has. rewrite existsb_app. cbn.
      destruct (String.eqb_spec k key); [contradiction|].
      now rewrite !orb_false_r.
    + destruct (set_has k keys) eqn:Hk1.
      * apply set_has_in. apply set_delete_in; [exact Hnd|].
        apply set_has_in in Hk1. now split.
      * destruct (set_has k (set_delete key keys)) eqn:Hk2; [|reflexivity].
        apply set_has_in in Hk2. apply set_delete_in in Hk2; [|exact Hnd].
        destruct Hk2 as [Hin _]. apply set_has_in in Hin. congruence.
Qed.

Lemma held_keys_are_a_set_witness :
  NoDup ["a"; "ArrowUp"]%string /\
  set_has "a"
    (handleKeyUp "a" (fst (handleKeyDown "a" ["a"; "ArrowUp"]%string)))
  = false.
Proof.
  assert (Hnd : NoDup ["a"; "ArrowUp"]%string).
  { repeat constructor; cbn; intuition discriminate. }
  split; [exact Hnd|].
  exact (proj1 (proj2 (proj2 (proj2 (held_keys_are_a_set "a"
                                       ["a"; "ArrowUp"]%string Hnd))))).
Defined.

End InputFacts.

(* ================================================================== *)
(** * Further properties of the server registry *)
(* ================================================================== *)
Module RegistryFacts.
Import ServerTs ServerFacts.

Lemma map_get_none_keys_conv (ws : WebSocket) (players : PlayerMap) :
  map_get ws players <> None -> In ws (map fst players).
Proof.
  intros Hget. destruct (in_dec Nat.eq_dec ws (map fst players)) as [H|H];
    [exact H|]. now apply map_get_none_keys in H.
Qed.

Lemma map_get_delete_other (ws c : WebSocket) (players : PlayerMap) :
  c <> ws -> map_get c (map_delete ws players) = map_get c players.
Proof.
  intros Hc. induction players as [|[k v] rest IH]; cbn; [reflexivity|].
  destruct (Nat.eqb_spec k ws) as [->|Hk]; cbn.
  - destruct (Nat.eqb_spec ws c); [congruence|reflexivity].
  - destruct (Nat.eqb_spec k c); [reflexivity|exact IH].
Qed.

Lemma map_get_delete_same (ws : WebSocket) (players : PlayerMap) :
  uniqueKeys players -> map_get ws (map_delete ws players) = None.
Proof.
  unfold uniqueKeys. induction players as [|[k v] rest IH]; cbn;
    intros Hu; [reflexivity|].
  inversion Hu as [|? ? Hk Hrest]; subst.
  destruct (Nat.eqb_spec k ws) as [->|Hne]; cbn.
  - now apply map_get_none_keys.
  - destruct (Nat.eqb_spec k ws); [contradiction|]. now apply IH.
Qed.

Lemma map_delete_absent (ws : WebSocket) (players : PlayerMap) :
  map_get ws players = None -> map_delete ws players = players.
Proof.
  induction players as [|[k v] rest IH]; cbn; [reflexivity|].
  destruct (Nat.eqb k ws); [discriminate|].
  intros H. now rewrite IH.
Qed.

Lemma map_delete_set_fresh (ws : WebSocket) (p : Player) (players : PlayerMap) :
  map_get ws players = None -> map_delete ws (map_set ws p players) = players.
Proof.
  induction players as [|[k v] rest IH]; cbn.
  - now rewrite Nat.eqb_refl.
  - destruct (Nat.eqb k ws) eqn:Hk; [discriminate|].
    intros H. cbn. rewrite Hk. now rewrite IH.
Qed.

Lemma onMap_delete (ws c : WebSocket) (m : Z) (players : PlayerMap) :
  uniqueKeys players ->
  onMap (map_delete ws players) m c
  = negb (Nat.eqb c ws) && onMap players m c.
Proof.
  intros Hu. unfold onMap. destruct (Nat.eqb_spec c ws) as [->|Hc]; cbn.
  - now rewrite map_get_delete_same.
  - now rewrite map_get_delete_other.
Qed.

Lemma onMap_set_other (ws c : WebSocket) (m : Z) (p : Player)
    (players : PlayerMap) :
  c <> ws -> onMap (map_set ws p players) m c = onMap players m c.
Proof. intros Hc. unfold onMap. now rewrite map_get_set_other. Qed.

(** X22. When a registered socket closes, its record is removed and the other
    records stay; each other open socket whose record is on the map the
    player was last on is sent one PLAYER_LEAVE with the player's
    identifier, and every other socket, the closed one included, is sent
    nothing. *)
Theorem close_removes_and_announces (rs : WebSocket -> ReadyState)
    (ws : WebSocket) (pid : string) (players : PlayerMap) (p : Player) :
  uniqueKeys players ->
  map_get ws players = Some p ->
  map_get ws (fst (onClose rs ws pid players)) = None /\
  (forall c, c <> ws ->
     map_get c (fst (onClose rs ws pid players)) = map_get c players) /\
  (forall c,
     sentTo c (snd (onClose rs ws pid players))
     = if negb (Nat.eqb c ws) && onMap players (mapId p) c && isOpen (rs c)
       then [PLAYER_LEAVE pid] else []).
Proof.
  intros Hu Hget. unfold onClose. rewrite Hget. cbn [fst snd].
  split; [now apply map_get_delete_same|].
  split; [intros c Hc; now apply map_get_delete_other|].
  intros c.
  rewrite (sentTo_broadcastToMap rs) by (now apply uniqueKeys_delete).
  rewrite onMap_delete by exact Hu. cbn [notExcluded].
  now rewrite andb_true_r.
Qed.

Lemma close_removes_and_announces_witness :
  uniqueKeys lobby /\
  map_get sockC lobby = Some (transitionedPlayer (spawnPlayer "C" 2) 5 10 18) /\
  map_get sockC (fst (onClose allOpen sockC "C" lobby)) = None /\
  sentTo sockA (snd (onClose allOpen sockC "C" lobby)) = [].
Proof.
  split; [exact lobby_uniqueKeys|]. split; [reflexivity|].
  pose proof (close_removes_and_announces allOpen sockC "C" lobby
                (transitionedPlayer (spawnPlayer "C" 2) 5 10 18)
                lobby_uniqueKeys eq_refl) as (Hgone & _ & Hsent).
  split; [exact Hgone|exact (Hsent sockA)].
Defined.

(** X23. Whatever a socket without a record sends, and whatever message of an
    unknown type any socket sends, the registry is left as it is and nothing
    is sent; the same holds when a socket without a record closes. *)
Theorem unregistered_and_unknown_are_ignored (rs : WebSocket -> ReadyState)
    (ws : WebSocket) (pid : string) (data : ClientMessage)
    (players : PlayerMap) :
  onMessage rs ws pid Unrecognized players = (players, []) /\
  (map_get ws players = None ->
   onMessage rs ws pid data players = (players, []) /\
   onClose rs ws pid players = (players, [])).
Proof.
  split; [reflexivity|]. intros Hnone. split.
  - unfold onMessage. destruct data; rewrite ?Hnone; reflexivity.
  - unfold onClose. rewrite Hnone. now rewrite map_delete_absent.
Qed.

Lemma sentTo_connection_other (rs : WebSocket -> ReadyState)
    (ws c : WebSocket) (pid : string) (sprite : Z) (players : PlayerMap) :
  uniqueKeys players ->
  c <> ws ->
  sentTo c (snd (onConnection rs ws pid sprite players))
  = if onMap players 79 c && isOpen (rs c)
    then [PLAYER_JOIN (spawnPlayer pid sprite)] else [].
Proof.
  intros Hu Hc. unfold onConnection. cbn [snd].
  change (copyPlayer (spawnPlayer pid sprite)) with (spawnPlayer pid sprite).
  cbn [mapId spawnPlayer].
  unfold sentTo at 1. cbn [filter fst snd].
  destruct (Nat.eqb_spec ws c) as [Heq|_]; [congruence|].
  change (sentTo c (broadcastToMap rs 79 (PLAYER_JOIN (spawnPlayer pid sprite))
                      (Some ws)
                      (map_set ws (spawnPlayer pid sprite) players))
          = if onMap players 79 c && isOpen (rs c)
            then [PLAYER_JOIN (spawnPlayer pid sprite)] else []).
  rewrite (sentTo_broadcastToMap rs) by (now apply uniqueKeys_set).
  rewrite onMap_set_other by exact Hc. cbn [notExcluded].
  destruct (Nat.eqb_spec c ws); [contradiction|].
  cbn [negb]. now rewrite andb_true_r.
Qed.

(** X24. A new connection is announced to the players of the spawn map only:
    each other open socket whose record is on map 79 is sent one
    PLAYER_JOIN with the new record, and the sockets on other maps are sent
    nothing. *)
Theorem arrival_is_announced_on_spawn_map (rs : WebSocket -> ReadyState)
    (ws c : WebSocket) (pid : string) (sprite : Z) (players : PlayerMap) :
  uniqueKeys players ->
  c <> ws ->
  sentTo c (snd (onConnection rs ws pid sprite players))
  = if onMap players 79 c && isOpen (rs c)
    then [PLAYER_JOIN (spawnPlayer pid sprite)] else [].
Proof.
  intros Hu Hc. unfold onConnection. cbn [snd].
  change (copyPlayer (spawnPlayer pid sprite)) with (spawnPlayer pid sprite).
  cbn [mapId spawnPlayer].
  unfold sentTo at 1. cbn [filter fst snd].
  destruct (Nat.eqb_spec ws c) as [Heq|_]; [congruence|].
  change (sentTo c (broadcastToMap rs 79 (PLAYER_JOIN (spawnPlayer pid sprite))
                      (Some ws)
                      (map_set ws (spawnPlayer pid sprite) players))
          = if onMap players 79 c && isOpen (rs c)
            then [PLAYER_JOIN (spawnPlayer pid sprite)] else []).
  rewrite (sentTo_broadcastToMap rs) by (now apply uniqueKeys_set).
  rewrite onMap_set_other by exact Hc. cbn [notExcluded].
  destruct (Nat.eqb_spec c ws); [contradiction|].
  cbn [negb]. now rewrite andb_true_r.
Qed.

Lemma sockets_differ : sockC <> 4%nat.
Proof. discriminate. Defined.

Lemma arrival_is_announced_on_spawn_map_witness :
  uniqueKeys lobby /\ sockC <> 4%nat /\
  sentTo sockC (snd (onConnection allOpen 4%nat "D" 3 lobby)) = [].
Proof.
  split; [exact lobby_uniqueKeys|]. split; [exact sockets_differ|].
  exact (arrival_is_announced_on_spawn_map allOpen 4%nat sockC "D" 3 lobby
           lobby_uniqueKeys sockets_differ).
Defined.

(** X25. Connecting and then closing a new socket leaves the registry as it was,
    and the sockets that were told of the arrival are the ones told of the
    departure. *)
Theorem connect_then_close_restores (rs : WebSocket -> ReadyState)
    (ws : WebSocket) (pid : string) (sprite : Z) (players : PlayerMap) :
  uniqueKeys players ->
  map_get ws players = None ->
  let joined := onConnection rs ws pid sprite players in
  let left := onClose rs ws pid (fst joined) in
  fst left = players /\
  (forall c, c <> ws ->
     (sentTo c (snd joined) = [PLAYER_JOIN (spawnPlayer pid sprite)] <->
      sentTo c (snd left) = [PLAYER_LEAVE pid]) /\
     (sentTo c (snd joined) = [] <-> sentTo c (snd left) = [])).
Proof.
  intros Hu Hfresh joined left.
  assert (Hreg : fst joined = map_set ws (spawnPlayer pid sprite) players)
    by reflexivity.
  assert (Hleft : left
                  = (players,
                     broadcastToMap rs 79 (PLAYER_LEAVE pid) None players)).
  { subst left. unfold onClose. rewrite Hreg, map_get_set_same.
    now rewrite map_delete_set_fresh. }
  split; [now rewrite Hleft|].
  intros c Hc. subst joined.
  rewrite (sentTo_connection_other rs ws c pid sprite players Hu Hc).
  rewrite Hleft. cbn [snd].
  rewrite (sentTo_broadcastToMap rs) by exact Hu. cbn [notExcluded].
  rewrite andb_true_r.
  destruct (onMap players 79 c && isOpen (rs c)); split; split;
    intros H; try reflexivity; discriminate.
Qed.

Lemma lobby_fresh_socket : map_get 4%nat lobby = None.
Proof. reflexivity. Defined.

Lemma connect_then_close_restores_witness :
  uniqueKeys lobby /\ map_get 4%nat lobby = None /\
  fst (onClose allOpen 4%nat "D"
         (fst (onConnection allOpen 4%nat "D" 3 lobby))) = lobby.
Proof.
  split; [exact lobby_uniqueKeys|]. split; [exact lobby_fresh_socket|].
  exact (proj1 (connect_then_close_restores allOpen 4%nat "D" 3 lobby
                  lobby_uniqueKeys lobby_fresh_socket)).
Defined.

Lemma broadcast_targets (rs : WebSocket -> ReadyState) (m : Z)
    (msg : ServerMessage) (ex : option WebSocket) (players : PlayerMap)
    (s : Sent) :
  In s (broadcastToMap rs m msg ex players) ->
  In (fst s) (map fst players) /\ isOpen (rs (fst s)) = true /\
  notExcluded (fst s) ex = true.
Proof.
  induction players as [|[k v] rest IH]; cbn; [tauto|].
  destruct ((mapId v =? m) && isOpen (rs k) && notExcluded k ex) eqn:Hc.
  - intros [<-|Hin].
    + apply andb_prop in Hc as [Hc H3]. apply andb_prop in Hc as [_ H2].
      cbn. tauto.
    + destruct (IH Hin) as (H1 & H2 & H3). tauto.
  - intros Hin. destruct (IH Hin) as (H1 & H2 & H3). tauto.
Qed.

(** X26. A message neither creates nor removes a record, and keeps the order of
    the registry; everything the server sends in response goes to a socket
    that has a record, and, when that socket is not the sender, to one that
    is open. *)
Theorem messages_keep_the_registry_keys (rs : WebSocket -> ReadyState)
    (ws : WebSocket) (pid : string) (data : ClientMessage)
    (players : PlayerMap) :
  map fst (fst (onMessage rs ws pid data players)) = map fst players /\
  (forall s, In s (snd (onMessage rs ws pid data players)) ->
     In (fst s) (map fst players) /\
     (fst s <> ws -> isOpen (rs (fst s)) = true)).
Proof.
  unfold onMessage.
  destruct data as [nx ny d mv om|F T nx ny|]; [| |split; [reflexivity|intros s []]];
    (destruct (map_get ws players) as [p|] eqn:Hp;
     [|split; [reflexivity|intros s []]]); cbn [fst snd].
  - assert (Hk : map fst (map_set ws (movedPlayer p nx ny d mv om) players)
                 = map fst players)
      by (apply map_set_keys; congruence).
    split; [exact Hk|].
    intros s Hin. apply broadcast_targets in Hin as (H1 & H2 & _).
    rewrite Hk in H1. now split.
  - assert (Hk : map fst (map_set ws (transitionedPlayer p T nx ny) players)
                 = map fst players)
      by (apply map_set_keys; congruence).
    split; [exact Hk|].
    intros s Hin. apply in_app_or in Hin as [Hin|Hin];
      [|apply in_app_or in Hin as [Hin|Hin]].
    + apply broadcast_targets in Hin as (H1 & H2 & _). now split.
    + apply broadcast_targets in Hin as (H1 & H2 & _).
      rewrite Hk in H1. now split.
    + apply in_map_iff in Hin as (q & <- & _). cbn. split; [|congruence].
      apply map_get_none_keys_conv. congruence.
Qed.

End RegistryFacts.

(* ================================================================== *)
(** * Properties of the client's network layer, alone and with the server *)
(* ================================================================== *)
Module ClientFacts.
Import ServerTs ServerFacts NetworkSystemTs.

Lemma connection_sends_init (rs : WebSocket -> ReadyState) (ws : WebSocket)
    (pid : string) (sprite : Z) (players : PlayerMap) :
  map_get ws players = None ->
  sentTo ws (snd (onConnection rs ws pid sprite players))
  = [INIT pid (recordsOnMap 79 players ++ [spawnPlayer pid sprite])].
Proof.
  intros Hfresh. unfold onConnection. cbn [snd mapId spawnPlayer].
  unfold sentTo at 1. cbn [filter fst snd]. rewrite Nat.eqb_refl.
  cbn [map snd]. f_equal.
  - f_equal. fold (recordsOnMap 79 (map_set ws (spawnPlayer pid sprite) players)).
    rewrite map_set_fresh by exact Hfresh. now rewrite recordsOnMap_app.
  - apply (sentTo_self_excluded rs).
Qed.

Lemma find_self_last (pid : string) (others : list Player) (self : Player) :
  Forall (fun q => id q <> pid) others ->
  id self = pid ->
  find (fun q => isSelf (Some pid) (id q)) (others ++ [self]) = Some self /\
  filter (fun q => negb (isSelf (Some pid) (id q))) (others ++ [self])
  = others.
Proof.
  intros Hall Hself.
  assert (Hs : isSelf (Some pid) (id self) = true)
    by (cbn; rewrite Hself; apply String.eqb_refl).
  induction Hall as [|q others Hq _ [IH1 IH2]]; cbn [app find filter].
  - rewrite Hs. split; reflexivity.
  - assert (Hn : isSelf (Some pid) (id q) = false)
      by (cbn; now apply String.eqb_neq).
    rewrite Hn. cbn [negb]. split; [exact IH1|now rewrite IH2].
Qed.

(** X28. End to end: when the client handles the INIT that the server sends to
    its new connection, it adopts the identifier, initialises its local
    player from its own record, and adds as remote players exactly the
    players that were already on the spawn map, in registry order, and not
    itself, provided its identifier is new. *)
Theorem init_yields_the_other_players (rs : WebSocket -> ReadyState)
    (ws : WebSocket) (pid : string) (sprite : Z) (players : PlayerMap)
    (ns : NetworkSystem) :
  map_get ws players = None ->
  Forall (fun q => id q <> pid) (map_values players) ->
  exists msg,
    sentTo ws (snd (onConnection rs ws pid sprite players)) = [msg] /\
    playerId (fst (handleMessage msg ns)) = Some pid /\
    snd (handleMessage msg ns)
    = onInitLocalPlayer (spawnPlayer pid sprite)
        :: map onAddRemotePlayer (recordsOnMap 79 players).
Proof.
  intros Hfresh Hids. eexists. split; [now apply connection_sends_init|].
  cbn [handleMessage fst snd playerId]. split; [reflexivity|].
  assert (Hothers : Forall (fun q => id q <> pid) (recordsOnMap 79 players)).
  { unfold recordsOnMap. rewrite Forall_forall in *.
    intros q Hq. apply filter_In in Hq. now apply Hids. }
  destruct (find_self_last pid (recordsOnMap 79 players)
              (spawnPlayer pid sprite) Hothers eq_refl) as [Hfind Hfilter].
  rewrite Hfind, Hfilter. reflexivity.
Qed.

Lemma lobby_ids_new :
  Forall (fun q => id q <> "D"%string) (map_values lobby).
Proof. repeat constructor; cbn; discriminate. Defined.

Lemma init_yields_the_other_players_witness :
  map_get 4%nat lobby = None /\
  Forall (fun q => id q <> "D"%string) (map_values lobby) /\
  exists msg,
    sentTo 4%nat (snd (onConnection allOpen 4%nat "D" 3 lobby)) = [msg] /\
    playerId (fst (handleMessage msg (new_NetworkSystem 79))) = Some "D"%string /\
    snd (handleMessage msg (new_NetworkSystem 79))
    = onInitLocalPlayer (spawnPlayer "D" 3)
        :: map onAddRemotePlayer (recordsOnMap 79 lobby).
Proof.
  split; [reflexivity|]. split; [exact lobby_ids_new|].
  exact (init_yields_the_other_players allOpen 4%nat "D" 3 lobby
           (new_NetworkSystem 79) eq_refl lobby_ids_new).
Defined.

(** X29. Whatever message arrives, the client never adds or updates a remote
    player under its own identifier, and it initialises its local player
    only from a record that carries its identifier. *)
Theorem client_never_mirrors_itself (msg : ServerMessage) (ns : NetworkSystem) :
  let me := playerId (fst (handleMessage msg ns)) in
  (forall d, In (onAddRemotePlayer d) (snd (handleMessage msg ns)) ->
             me <> Some (id d)) /\
  (forall i ux uy ud um,
     In (onUpdateRemotePlayer i ux uy ud um) (snd (handleMessage msg ns)) ->
     me <> Some i) /\
  (forall d, In (onInitLocalPlayer d) (snd (handleMessage msg ns)) ->
             me = Some (id d)).
Proof.
  assert (Hself : forall me i, isSelf me i = false -> me <> Some i).
  { intros [j|] i H; [|discriminate]. cbn in H.
    intros Heq. injection Heq as ->. now rewrite String.eqb_refl in H. }
  destruct msg as [i players|player|i mx my md mm mmap|i]; cbn.
  - repeat split.
    + intros d Hin. apply in_app_or in Hin as [Hin|Hin].
      * destruct (find _ players); [destruct Hin as [H|[]]|destruct Hin];
          discriminate.
      * apply in_map_iff in Hin as (q & Hq & Hin). injection Hq as ->.
        apply filter_In in Hin as [_ Hn]. apply Hself.
        now apply negb_true_iff in Hn.
    + intros j ux uy ud um Hin. apply in_app_or in Hin as [Hin|Hin].
      * destruct (find _ players); [destruct Hin as [H|[]]|destruct Hin];
          discriminate.
      * apply in_map_iff in Hin as (q & Hq & _). discriminate.
    + intros d Hin. apply in_app_or in Hin as [Hin|Hin].
      * destruct (find _ players) as [q|] eqn:Hf; [|destruct Hin].
        destruct Hin as [H|[]]. injection H as ->.
        apply find_some in Hf as [_ Hq]. cbn in Hq.
        apply String.eqb_eq in Hq. now rewrite Hq.
      * apply in_map_iff in Hin as (q & Hq & _). discriminate.
  - destruct (isSelf (playerId ns) (id player)) eqn:Hs; cbn;
      repeat split; try (intros; contradiction).
    + intros d [H|[]]. injection H as <-. now apply Hself.
    + intros j ux uy ud um [H|[]]. discriminate.
    + intros d [H|[]]. discriminate.
  - destruct (isSelf (playerId ns) i) eqn:Hs; cbn;
      repeat split; try (intros; contradiction).
    + intros d [H|[]]. discriminate.
    + intros j ux uy ud um [H|[]]. injection H as <- _ _ _ _.
      now apply Hself.
    + intros d [H|[]]. discriminate.
  - repeat split.
    + intros d [H|[]]. discriminate.
    + intros j ux uy ud um [H|[]]. discriminate.
    + intros d [H|[]]. discriminate.
Qed.

(** ** Client and server together *)

Lemma clientSend_step (rs : WebSocket -> ReadyState) (ws : WebSocket)
    (pid : string) (o : ClientOp) (ns : NetworkSystem) (players : PlayerMap)
    (p : Player) :
  connected ns = true -> socket ns = true ->
  map_get ws players = Some p ->
  connected (fst (clientSend o ns)) = true /\
  socket (fst (clientSend o ns)) = true /\
  exists p',
    map_get ws (deliver rs ws pid (snd (clientSend o ns)) players) = Some p' /\
    mapId p' = currentMapId (fst (clientSend o ns)) /\
    id p' = id p.
Proof.
  intros Hc Hs Hget.
  destruct o as [mx my md mm|a b nx ny]; cbn [clientSend].
  - unfold sendMove. rewrite Hc, Hs. cbn [andb fst snd deliver fold_left].
    split; [first [exact Hc|reflexivity]|].
    split; [first [exact Hs|reflexivity]|].
    unfold onMessage. rewrite Hget. cbn [fst].
    rewrite map_get_set_same. eexists. split; [reflexivity|].
    split; reflexivity.
  - unfold sendMapTransition. rewrite Hc, Hs.
    cbn [andb fst snd deliver fold_left connected socket currentMapId].
    split; [first [exact Hc|reflexivity]|].
    split; [first [exact Hs|reflexivity]|].
    unfold onMessage. rewrite Hget. cbn [fst].
    rewrite map_get_set_same. eexists. split; [reflexivity|].
    split; reflexivity.
Qed.

Lemma session_snoc (rs : WebSocket -> ReadyState) (ws : WebSocket)
    (pid : string) (ops : list ClientOp) (o : ClientOp)
    (st : NetworkSystem * PlayerMap) :
  session rs ws pid (ops ++ [o]) st
  = (fst (clientSend o (fst (session rs ws pid ops st))),
     deliver rs ws pid (snd (clientSend o (fst (session rs ws pid ops st))))
             (snd (session rs ws pid ops st))).
Proof. unfold session. now rewrite fold_left_app. Qed.

Lemma session_valid (rs : WebSocket -> ReadyState) (ws : WebSocket)
    (pid : string) (ops : list ClientOp) :
  forall (ns : NetworkSystem) (players : PlayerMap) (p : Player),
    connected ns = true -> socket ns = true ->
    map_get ws players = Some p ->
    connected (fst (session rs ws pid ops (ns, players))) = true /\
    socket (fst (session rs ws pid ops (ns, players))) = true /\
    exists p',
      map_get ws (snd (session rs ws pid ops (ns, players))) = Some p' /\
      id p' = id p.
Proof.
  induction ops as [|o ops IH] using rev_ind; intros ns players p Hc Hs Hget.
  - cbn. repeat split; try assumption. exists p. now split.
  - rewrite session_snoc. cbn [fst snd].
    destruct (IH ns players p Hc Hs Hget) as (Hc' & Hs' & q & Hq & Hid).
    destruct (clientSend_step rs ws pid o _ _ q Hc' Hs' Hq)
      as (Hc'' & Hs'' & q' & Hq' & _ & Hid').
    repeat split; try assumption. exists q'. split; [exact Hq'|congruence].
Qed.

(** X30. Client and server agree on the player's map: once a connected client
    with a record on the server has reported at least one move or map
    change, the map of its server record is the map the client believes it
    is on, after any sequence of such reports; the record keeps its
    identifier. *)
Theorem client_and_server_agree_on_map (rs : WebSocket -> ReadyState)
    (ws : WebSocket) (pid : string) (ops : list ClientOp)
    (ns : NetworkSystem) (players : PlayerMap) (p : Player) :
  connected ns = true ->
  socket ns = true ->
  map_get ws players = Some p ->
  ops <> [] ->
  exists p',
    map_get ws (snd (session rs ws pid ops (ns, players))) = Some p' /\
    mapId p' = currentMapId (fst (session rs ws pid ops (ns, players))) /\
    id p' = id p.
Proof.
  intros Hc Hs Hget Hne.
  destruct ops as [|o ops] using rev_ind; [contradiction|]. clear IHops.
  rewrite session_snoc. cbn [fst snd].
  destruct (session_valid rs ws pid ops ns players p Hc Hs Hget)
    as (Hc' & Hs' & q & Hq & Hid).
  destruct (clientSend_step rs ws pid o _ _ q Hc' Hs' Hq)
    as (_ & _ & q' & Hq' & Hmap & Hid').
  exists q'. repeat split; [exact Hq'|exact Hmap|congruence].
Qed.

Lemma sample_client_ops_nonempty : sample_client_ops <> [].
Proof. discriminate. Defined.

Lemma client_and_server_agree_on_map_witness :
  connected onlineClient = true /\ socket onlineClient = true /\
  map_get sockA lobby = Some (spawnPlayer "A" 0) /\
  sample_client_ops <> [] /\
  exists p',
    map_get sockA
      (snd (session allOpen sockA "A" sample_client_ops (onlineClient, lobby)))
    = Some p' /\
    mapId p'
    = currentMapId
        (fst (session allOpen sockA "A" sample_client_ops
                (onlineClient, lobby))) /\
    id p' = id (spawnPlayer "A" 0).
Proof.
  split; [reflexivity|]. split; [reflexivity|]. split; [reflexivity|].
  split; [exact sample_client_ops_nonempty|].
  exact (client_and_server_agree_on_map allOpen sockA "A" sample_client_ops
           onlineClient lobby (spawnPlayer "A" 0) eq_refl eq_refl eq_refl
           sample_client_ops_nonempty).
Defined.

(** A client that is not connected sends nothing, and a map change it could
    not report does not change the map it puts in later moves. *)
Theorem offline_client_sends_nothing (ns : NetworkSystem) (o : ClientOp) :
  connected ns && socket ns = false ->
  clientSend o ns = (ns, []).
Proof.
  intros Hoff. destruct o; cbn; unfold sendMove, sendMapTransition;
    now rewrite Hoff.
Qed.

Lemma offline_client_sends_nothing_witness :
  connected (new_NetworkSystem 79) && socket (new_NetworkSystem 79) = false /\
  clientSend (DoTransition 79 5 20 22) (new_NetworkSystem 79)
  = (new_NetworkSystem 79, []).
Proof.
  split; [reflexivity|].
  exact (offline_client_sends_nothing (new_NetworkSystem 79)
           (DoTransition 79 5 20 22) eq_refl).
Defined.

(** X27. After a player has changed map, it hears the moves of the players on
    its new map and no others: a later MOVE from another socket reaches it
    exactly when that socket's record is then on the map the player moved
    to and the player's socket is open. *)
Theorem after_transition_hears_new_map_only (rs : WebSocket -> ReadyState)
    (ws c : WebSocket) (pid pidc : string) (F T nx ny : Z)
    (mx my : Z) (md : Direction) (mm : bool) (om : option Z)
    (players : PlayerMap) (p q : Player) :
  uniqueKeys players ->
  map_get ws players = Some p ->
  map_get c players = Some q ->
  c <> ws ->
  let moved := fst (onMessage rs ws pid (MAP_TRANSITION F T nx ny) players) in
  let there := match om with Some k => k | None => mapId q end in
  sentTo ws (snd (onMessage rs c pidc (MOVE mx my md mm om) moved))
  = if (there =? T) && isOpen (rs ws)
    then [PLAYER_MOVE pidc mx my md mm there] else [].
Proof.
  intros Hu Hp Hq Hc moved there.
  assert (Hmoved : moved = map_set ws (transitionedPlayer p T nx ny) players).
  { subst moved. unfold onMessage. now rewrite Hp. }
  assert (Hq' : map_get c moved = Some q).
  { rewrite Hmoved. now rewrite map_get_set_other. }
  assert (Hu' : uniqueKeys moved) by (rewrite Hmoved; now apply uniqueKeys_set).
  unfold onMessage. rewrite Hq'. cbn [snd].
  rewrite (sentTo_broadcastToMap rs) by (now apply uniqueKeys_set).
  cbn [movedPlayer mapId x y direction isMoving]. fold there.
  unfold onMap. rewrite map_get_set_other by congruence.
  rewrite Hmoved, map_get_set_same. cbn [mapId transitionedPlayer notExcluded].
  destruct (Nat.eqb_spec ws c); [congruence|]. cbn [negb].
  rewrite andb_true_r, (Z.eqb_sym T there). reflexivity.
Qed.

Lemma sockets_A_B_differ : sockA <> sockB.
Proof. discriminate. Defined.

Lemma after_transition_hears_new_map_only_witness :
  uniqueKeys lobby /\
  map_get sockB lobby = Some (spawnPlayer "B" 1) /\
  map_get sockA lobby = Some (spawnPlayer "A" 0) /\
  sockA <> sockB /\
  sentTo sockB
    (snd (onMessage allOpen sockA "A" (MOVE 5 5 Down true None)
            (fst (onMessage allOpen sockB "B" (MAP_TRANSITION 79 5 10 18)
                    lobby))))
  = [].
Proof.
  split; [exact lobby_uniqueKeys|]. split; [reflexivity|].
  split; [reflexivity|]. split; [exact sockets_A_B_differ|].
  exact (after_transition_hears_new_map_only allOpen sockB sockA "B" "A"
           79 5 10 18 5 5 Down true None lobby
           (spawnPlayer "B" 1) (spawnPlayer "A" 0)
           lobby_uniqueKeys eq_refl eq_refl sockets_A_B_differ).
Defined.

End ClientFacts.
